(** * Air-route network: graph construction, ranking, statistics, geodesics

    A shallow embedding of [backend/graph.py] (class [AirportMapVisualizer]).

    - The two pandas tables are lists of rows, in file order.
    - [networkx.Graph] is modelled by its two dictionaries: [_node]
      (insertion-ordered, hence an association list) and [_adj] (node to
      the set of its neighbours).
    - Python exceptions are values of [exn]; a function that can raise
      returns a [result].
    - Python [float]s are read as exact real numbers (Stdlib [R]): the
      GeoMath theorems are statements about the formulas the code
      evaluates, not about binary64 rounding.
    - [networkx], [numpy] and [math] are libraries, not part of the
      repository: the functions the code calls are written out after
      their implementation and documentation. *)

From Stdlib Require Import ZArith QArith Reals Lra Lia.
From stdpp Require Import base option list sorting gmap sets strings.

Set Warnings "-clear-no-such-hyp".
Local Open Scope Z_scope.

(** ** Exceptions *)

Inductive exn : Type :=
  | ValueError
  | ZeroDivisionError
  | NetworkXError
  | NetworkXPointlessConcept.

(** The Python class name of an exception. *)
Definition exn_name (e : exn) : string :=
  match e with
  | ValueError => "ValueError"
  | ZeroDivisionError => "ZeroDivisionError"
  | NetworkXError => "NetworkXError"
  | NetworkXPointlessConcept => "NetworkXPointlessConcept"
  end.

Inductive result (A : Type) : Type :=
  | Ok (a : A)
  | Raise (e : exn).
Arguments Ok {A} a.
Arguments Raise {A} e.

Global Instance result_ret : MRet result := λ A a, Ok a.
Global Instance result_bind : MBind result := λ A B k m,
  match m with
  | Ok a => k a
  | Raise e => Raise e
  end.

(** ** The tables *)

(** A row of [airports_min.csv]. *)
Record Airport : Type := mkAirport {
  airport_id : Z;
  airport_name : string;
  airport_lat : R;
  airport_lon : R
}.

(** A row of [routes_min.csv]. *)
Record Route : Type := mkRoute {
  src_id : Z;
  dst_id : Z;
  airline : string
}.

(** ** networkx.Graph *)

(** The attribute dictionary of a node; [add_node] receives all three keys
    at once. A node created by [add_edge] has the empty dictionary, [None]
    below. *)
Record NodeAttr : Type := mkNodeAttr {
  attr_name : string;
  attr_lat : R;
  attr_lon : R
}.

Record Graph : Type := mkGraph {
  _node : list (Z * option NodeAttr);
  _adj : gmap Z (gset Z)
}.

Definition empty_graph : Graph := mkGraph [] ∅.

(** [G.nodes()]: the keys of [_node], in insertion order. *)
Definition nodes (g : Graph) : list Z := (_node g).*1.

(** [n in G.nodes] *)
Definition has_node (g : Graph) (n : Z) : bool := bool_decide (n ∈ nodes g).

(** [d[k] = v] on an insertion-ordered dictionary: an existing key keeps its
    place, a new key goes last. *)
Fixpoint dict_set {V} (k : Z) (v : V) (d : list (Z * V)) : list (Z * V) :=
  match d with
  | [] => [(k, v)]
  | (k', v') :: d' =>
      if decide (k' = k) then (k, v) :: d' else (k', v') :: dict_set k v d'
  end.

(** [G.add_node(n, name=.., lat=.., lon=..)] *)
Definition add_node (n : Z) (a : NodeAttr) (g : Graph) : Graph :=
  if has_node g n
  then mkGraph (dict_set n (Some a) (_node g)) (_adj g)
  else mkGraph (dict_set n (Some a) (_node g)) (<[n := ∅]> (_adj g)).

(** The first lines of [add_edge]: an endpoint that is not a node yet
    becomes one, with no attributes. *)
Definition ensure_node (n : Z) (g : Graph) : Graph :=
  if has_node g n then g
  else mkGraph (dict_set n None (_node g)) (<[n := ∅]> (_adj g)).

(** [_adj[u][v] = {}]; [ensure_node] has created [_adj[u]] before. *)
Definition adj_add (u v : Z) (adj : gmap Z (gset Z)) : gmap Z (gset Z) :=
  <[u := default ∅ (adj !! u) ∪ {[v]}]> adj.

(** [G.add_edge(u, v)] *)
Definition add_edge (u v : Z) (g : Graph) : Graph :=
  let g2 := ensure_node v (ensure_node u g) in
  mkGraph (_node g2) (adj_add v u (adj_add u v (_adj g2))).

(** [G.neighbors(n)] raises [NetworkXError] for a key that is not in
    [_adj]. *)
Definition neighbors (g : Graph) (n : Z) : result (gset Z) :=
  match _adj g !! n with
  | Some s => Ok s
  | None => Raise NetworkXError
  end.

(** [len(list(G.neighbors(n)))] *)
Definition connections (g : Graph) (n : Z) : result Z :=
  s ← neighbors g n; Ok (Z.of_nat (size s)).

(** [(u, v) in G.edges] *)
Definition has_edge (g : Graph) (u v : Z) : Prop :=
  ∃ s, _adj g !! u = Some s ∧ v ∈ s.

(** ** AirportMapVisualizer._build_graph *)

Definition attr_of (a : Airport) : NodeAttr :=
  mkNodeAttr (airport_name a) (airport_lat a) (airport_lon a).

Definition add_airport (g : Graph) (a : Airport) : Graph :=
  add_node (airport_id a) (attr_of a) g.

Definition add_route (g : Graph) (r : Route) : Graph :=
  if has_node g (src_id r) && has_node g (dst_id r)
  then add_edge (src_id r) (dst_id r) g
  else g.

Definition _build_graph (airports_df : list Airport) (routes_df : list Route)
  : Graph :=
  foldl add_route (foldl add_airport empty_graph airports_df) routes_df.

(** ** AirportMapVisualizer.get_top_airports *)

(** [d[k]] for a key known to be in the dictionary. *)
Fixpoint dict_get (k : Z) (d : list (Z * Z)) : Z :=
  match d with
  | [] => 0
  | (k', v) :: d' => if decide (k' = k) then v else dict_get k d'
  end.

(** The loop that fills [airport_connections]. *)
Fixpoint count_connections (g : Graph) (ids : list Z) (d : list (Z * Z))
  : result (list (Z * Z)) :=
  match ids with
  | [] => Ok d
  | i :: ids' => c ← connections g i; count_connections g ids' (dict_set i c d)
  end.

(** [sorted(l, key=key, reverse=True)]. Python's sort is stable, also with
    [reverse=True]: among equal keys the order of [l] is kept. *)
Fixpoint insert_desc (key : Z → Z) (x : Z) (l : list Z) : list Z :=
  match l with
  | [] => [x]
  | y :: l' =>
      if decide (key x < key y) then y :: insert_desc key x l' else x :: y :: l'
  end.

Definition sorted_reverse (key : Z → Z) (l : list Z) : list Z :=
  foldr (insert_desc key) [] l.

(** [l[:n]]: a negative [n] counts from the end. *)
Definition slice_to {A} (n : Z) (l : list A) : list A :=
  if decide (0 ≤ n) then take (Z.to_nat n) l
  else take (Z.to_nat (Z.of_nat (length l) + n)) l.

(** [df[df['id'].isin(ids)]]: the rows whose id is listed, in table order. *)
Definition isin_rows (ids : list Z) (df : list Airport) : list Airport :=
  filter (λ a, airport_id a ∈ ids) df.

Definition top_airports_ids (g : Graph) (n : Z) : result (list Z) :=
  airport_connections ← count_connections g (nodes g) [];
  Ok (slice_to n (sorted_reverse (λ x, dict_get x airport_connections)
                                 airport_connections.*1)).

Definition get_top_airports (airports_df : list Airport) (g : Graph) (n : Z)
  : result (list Airport) :=
  top_airports_ids ← top_airports_ids g n;
  Ok (isin_rows top_airports_ids airports_df).

(** ** networkx: breadth-first search, components, diameter *)

(** One pass of the [while nextlevel] loop shared by [_plain_bfs] and
    [_single_shortest_path_length]: the unseen neighbours of [thislevel]. *)
Definition next_level (adj : gmap Z (gset Z)) (seen thislevel : gset Z)
  : gset Z :=
  set_bind (λ v, default ∅ (adj !! v)) thislevel ∖ seen.

(** The successive levels, starting with [thislevel]. Every non-empty level
    adds a node to [seen], so a fuel of [len(adj) + 1] passes runs the loop
    to its end ([bfs_levels_spec] below). *)
Fixpoint bfs_levels (adj : gmap Z (gset Z)) (fuel : nat)
    (seen thislevel : gset Z) : list (gset Z) :=
  match fuel with
  | O => []
  | S fuel' =>
      if decide (thislevel = ∅) then []
      else
        let nextlevel := next_level adj seen thislevel in
        thislevel :: bfs_levels adj fuel' (seen ∪ nextlevel) nextlevel
  end.

Definition levels_from (g : Graph) (source : Z) : list (gset Z) :=
  bfs_levels (_adj g) (S (size (_adj g))) {[source]} {[source]}.

(** [_plain_bfs(G, source)]: the set of nodes reached. *)
Definition _plain_bfs (g : Graph) (source : Z) : gset Z :=
  ⋃ levels_from g source.

(** [dict(nx.shortest_path_length(G, source))]: node to its level. *)
Fixpoint levels_to_dict (level : nat) (ls : list (gset Z)) : gmap Z nat :=
  match ls with
  | [] => ∅
  | l :: ls' => gset_to_gmap level l ∪ levels_to_dict (S level) ls'
  end.

Definition shortest_path_length (g : Graph) (source : Z) : gmap Z nat :=
  levels_to_dict 0 (levels_from g source).

(** [max(l)] *)
Definition py_max (l : list Z) : result Z :=
  match l with
  | [] => Raise ValueError
  | x :: l' => Ok (foldl Z.max x l')
  end.

(** [nx.eccentricity(G)] for one node. *)
Definition eccentricity (g : Graph) (n : Z) : result Z :=
  let length := shortest_path_length g n in
  if decide (size length = List.length (nodes g))
  then py_max (Z.of_nat <$> (map_to_list length).*2)
  else Raise NetworkXError.

(** [nx.diameter(G)]: the greatest eccentricity. *)
Definition nx_diameter (g : Graph) : result Z :=
  e ← mapM (eccentricity g) (nodes g); py_max e.

(** [nx.is_connected(G)] *)
Definition is_connected (g : Graph) : result bool :=
  match nodes g with
  | [] => Raise NetworkXPointlessConcept
  | source :: _ =>
      Ok (bool_decide (size (_plain_bfs g source) = List.length (nodes g)))
  end.

(** [nx.number_connected_components(G)]: one search from every node that no
    earlier search has reached. *)
Definition components_step (g : Graph) (st : gset Z * Z) (v : Z)
  : gset Z * Z :=
  if decide (v ∈ st.1) then st else (st.1 ∪ _plain_bfs g v, st.2 + 1).

Definition number_connected_components (g : Graph) : Z :=
  (foldl (components_step g) (∅, 0) (nodes g)).2.

(** [len(G.edges())]: a self-loop sits once in its node's adjacency, every
    other edge in two. *)
Definition edge_ends (n : Z) (nbrs : gset Z) : Z :=
  Z.of_nat (size nbrs) + (if decide (n ∈ nbrs) then 1 else 0).

Definition number_of_edges (g : Graph) : Z :=
  foldr (λ (item : Z * gset Z) acc, edge_ends item.1 item.2 + acc)
        0 (map_to_list (_adj g)) `div` 2.

(** ** AirportMapVisualizer.get_network_statistics *)

(** A Python value that is a number or a text. *)
Inductive pyvalue : Type :=
  | PyInt (z : Z)
  | PyStr (s : string).

(** [np.mean] of integers: not-a-number for the empty list (with a warning,
    not an exception), else the quotient of sum and length. *)
Inductive npfloat : Type :=
  | np_nan
  | np_quot (q : Q).

Definition np_mean (l : list Z) : npfloat :=
  match l with
  | [] => np_nan
  | _ => np_quot (Qmake (foldr Z.add 0 l) (Pos.of_nat (List.length l)))
  end.

Record Stats : Type := mkStats {
  total_airports : Z;
  total_routes : Z;
  avg_connections : npfloat;
  max_connections : Z;
  connected_components : Z;
  diameter : pyvalue
}.

Definition not_connected_text : string := "N/A (grafo não conectado)".

Definition get_network_statistics (g : Graph) : result Stats :=
  let total_airports := Z.of_nat (List.length (nodes g)) in
  let total_routes := number_of_edges g in
  conns ← mapM (connections g) (nodes g);
  let avg_connections := np_mean conns in
  conns' ← mapM (connections g) (nodes g);
  max_connections ← py_max conns';
  let connected_components := number_connected_components g in
  connected ← is_connected g;
  diameter ← (if connected : bool
              then d ← nx_diameter g; Ok (PyInt d)
              else Ok (PyStr not_connected_text));
  Ok (mkStats total_airports total_routes avg_connections max_connections
              connected_components diameter).

(** ** GeoMath: the [math] module and the two geodesic functions *)

Section GeoMath.
Local Open Scope R_scope.

Definition radians (x : R) : R := x * (PI / 180).
Definition degrees (x : R) : R := x * (180 / PI).

(** [math.sqrt] and [math.asin] raise [ValueError] outside their domain. *)
Definition py_sqrt (x : R) : result R :=
  if Rlt_dec x 0 then Raise ValueError else Ok (sqrt x).

Definition py_asin (x : R) : result R :=
  if Rlt_dec x (-1) then Raise ValueError
  else if Rlt_dec 1 x then Raise ValueError
  else Ok (asin x).

(** [math.atan2(y, x)]: the angle of the point [(x, y)], in [(-PI, PI]];
    [atan2(0, 0)] is [0]. *)
Definition atan2 (y x : R) : R :=
  if Rlt_dec 0 x then atan (y / x)
  else if Rlt_dec x 0 then
    (if Rle_dec 0 y then atan (y / x) + PI else atan (y / x) - PI)
  else if Rlt_dec 0 y then PI / 2
  else if Rlt_dec y 0 then - (PI / 2)
  else 0.

(** [x / y] on floats. *)
Definition float_div (x y : R) : result R :=
  if Req_dec_T y 0 then Raise ZeroDivisionError else Ok (x / y).

(** [i / n] on integers (true division). *)
Definition int_truediv (i n : Z) : result R :=
  if decide (n = 0%Z) then Raise ZeroDivisionError else Ok (IZR i / IZR n).

(** [sin(dlat/2)**2 + cos(lat1) * cos(lat2) * sin(dlon/2)**2], on radians. *)
Definition hav_a (lat1 lon1 lat2 lon2 : R) : R :=
  let dlat := lat2 - lat1 in
  let dlon := lon2 - lon1 in
  sin (dlat / 2) ^ 2 + cos lat1 * cos lat2 * sin (dlon / 2) ^ 2.

Definition haversine_distance (lat1 lon1 lat2 lon2 : R) : result R :=
  let lat1 := radians lat1 in
  let lon1 := radians lon1 in
  let lat2 := radians lat2 in
  let lon2 := radians lon2 in
  let a := hav_a lat1 lon1 lat2 lon2 in
  s ← py_sqrt a;
  t ← py_asin s;
  let c := 2 * t in
  let r := 6371 in
  Ok (c * r).

(** The weight [sin(g * c) / sin(c) if sin(c) != 0 else g]. *)
Definition slerp_weight (g c : R) : result R :=
  if Req_dec_T (sin c) 0 then Ok g else float_div (sin (g * c)) (sin c).

(** The body of the [for] loop of [great_circle_path], for one [i]; the
    coordinates are in radians. *)
Definition path_point (lat1 lon1 lat2 lon2 c : R) (num_points i : Z)
  : result (R * R) :=
  f ← int_truediv i num_points;
  A ← slerp_weight (1 - f) c;
  B ← slerp_weight f c;
  let x := A * cos lat1 * cos lon1 + B * cos lat2 * cos lon2 in
  let y := A * cos lat1 * sin lon1 + B * cos lat2 * sin lon2 in
  let z := A * sin lat1 + B * sin lat2 in
  h ← py_sqrt (x ^ 2 + y ^ 2);
  let lat := atan2 z h in
  let lon := atan2 y x in
  Ok (degrees lat, degrees lon).

(** The loop: [lats.append(..); lons.append(..)] for [i] in
    [range(num_points + 1)]. *)
Fixpoint path_loop (lat1 lon1 lat2 lon2 c : R) (num_points : Z)
    (range : list Z) (lats lons : list R) : result (list R * list R) :=
  match range with
  | [] => Ok (lats, lons)
  | i :: range' =>
      p ← path_point lat1 lon1 lat2 lon2 c num_points i;
      path_loop lat1 lon1 lat2 lon2 c num_points range'
                (lats ++ [p.1]) (lons ++ [p.2])
  end.

Definition great_circle_path (lat1 lon1 lat2 lon2 : R) (num_points : Z)
  : result (list R * list R) :=
  let lat1 := radians lat1 in
  let lon1 := radians lon1 in
  let lat2 := radians lat2 in
  let lon2 := radians lon2 in
  let a := hav_a lat1 lon1 lat2 lon2 in
  s ← py_sqrt a;
  s' ← py_sqrt (1 - a);
  let c := 2 * atan2 s s' in
  path_loop lat1 lon1 lat2 lon2 c num_points (seqZ 0 (num_points + 1)) [] [].

(** The formula of the haversine distance as the specification words it:
    everything in radians, [a], then [c = 2 asin (sqrt a)], then [c] times
    the mean Earth radius in kilometres. *)
Definition haversine_reference (lat1 lon1 lat2 lon2 : R) : R :=
  let φ1 := lat1 * PI / 180 in
  let λ1 := lon1 * PI / 180 in
  let φ2 := lat2 * PI / 180 in
  let λ2 := lon2 * PI / 180 in
  let Δlat := φ2 - φ1 in
  let Δlon := λ2 - λ1 in
  let a := (sin (Δlat / 2))² + cos φ1 * cos φ2 * (sin (Δlon / 2))² in
  let c := 2 * asin (sqrt a) in
  c * 6371.

End GeoMath.

(** ** Notions used to state the properties *)

(** The ids of a table of airports. *)
Definition airport_ids (airports_df : list Airport) : list Z :=
  airport_id <$> airports_df.

(** A route whose two ends are airports of the table. *)
Definition resolvable (airports_df : list Airport) (r : Route) : Prop :=
  src_id r ∈ airport_ids airports_df ∧ dst_id r ∈ airport_ids airports_df.

(** [r] joins [u] and [v], in either direction. *)
Definition joins (r : Route) (u v : Z) : Prop :=
  (u = src_id r ∧ v = dst_id r) ∨ (u = dst_id r ∧ v = src_id r).

(** The class invariant of [networkx.Graph]: [_node] and [_adj] have the
    same keys, each once; neighbours are nodes; adjacency is symmetric. *)
Record graph_wf (g : Graph) : Prop := mk_graph_wf {
  wf_nodup : NoDup (nodes g);
  wf_dom : ∀ n, n ∈ nodes g ↔ is_Some (_adj g !! n);
  wf_closed : ∀ u v, has_edge g u v → v ∈ nodes g;
  wf_sym : ∀ u v, has_edge g u v → has_edge g v u
}.

(** A walk of [k] hops from [u] to [v]. *)
Inductive walk (g : Graph) (u : Z) : Z → nat → Prop :=
  | walk_nil : u ∈ nodes g → walk g u u 0
  | walk_step v w k : walk g u v k → has_edge g v w → walk g u w (S k).

(** [k] is the shortest-path distance in hops from [u] to [v]. *)
Definition hop_distance (g : Graph) (u v : Z) (k : nat) : Prop :=
  walk g u v k ∧ ∀ k', walk g u v k' → (k ≤ k')%nat.

(** A connected graph: at least one node, and a walk between any two. *)
Definition connected (g : Graph) : Prop :=
  nodes g ≠ [] ∧ ∀ u v, u ∈ nodes g → v ∈ nodes g → ∃ k, walk g u v k.

(** [d] is the greatest shortest-path distance over all pairs of nodes. *)
Definition greatest_hop_distance (g : Graph) (d : nat) : Prop :=
  (∃ u v, hop_distance g u v d) ∧
  (∀ u v k, hop_distance g u v k → (k ≤ d)%nat).

(** What the search from [s] knows when it starts the pass for level [k]:
    [seen] holds the nodes at most [k] hops away, [thislevel] those exactly
    [k] away. *)
Definition level_inv (g : Graph) (s : Z) (k : nat) (seen thislevel : gset Z)
  : Prop :=
  (∀ v, v ∈ seen ↔ ∃ j, (j ≤ k)%nat ∧ walk g s v j) ∧
  (∀ v, v ∈ thislevel ↔ hop_distance g s v k).

(** Descending order of [key] along a list. *)
Definition sorted_desc (key : Z → Z) (l : list Z) : Prop :=
  ∀ i j x y, (i < j)%nat → l !! i = Some x → l !! j = Some y → key y ≤ key x.

(** [x] comes before [y] in [l]. *)
Definition before (l : list Z) (x y : Z) : Prop :=
  ∃ l1 l2 l3, l = l1 ++ x :: l2 ++ y :: l3.

(** [x] ranks above [y]: a greater key, or the same key and an earlier
    place in [l]. *)
Definition ranks_above (key : Z → Z) (l : list Z) (x y : Z) : Prop :=
  key y < key x ∨ (key y = key x ∧ before l x y).

(** The number of neighbours of a node, [0] for a key without adjacency. *)
Definition degree (g : Graph) (n : Z) : Z :=
  Z.of_nat (size (default ∅ (_adj g !! n))).

(** ** Example tables *)

(** Three airports and three routes, one of them between unknown ids. *)
Definition example_airports : list Airport :=
  [mkAirport 1 "A" 0 0; mkAirport 2 "B" 0 0; mkAirport 3 "C" 0 0].

Definition example_routes : list Route :=
  [mkRoute 1 2 "x"; mkRoute 2 3 "y"; mkRoute 4 5 "z"].

(** A table in which the id [1] occurs twice. *)
Definition repeated_airports : list Airport :=
  [mkAirport 1 "A" 0 0; mkAirport 1 "B" 0 0].

(** Two pairs of airports without a route between the pairs. *)
Definition split_airports : list Airport :=
  [mkAirport 1 "A" 0 0; mkAirport 2 "B" 0 0;
   mkAirport 3 "C" 0 0; mkAirport 4 "D" 0 0].

Definition split_routes : list Route :=
  [mkRoute 1 2 "x"; mkRoute 3 4 "y"].

(** ** Notions used to state further properties *)

(** [d.get(k)] on an insertion-ordered dictionary. *)
Fixpoint dict_lookup {V} (k : Z) (d : list (Z * V)) : option V :=
  match d with
  | [] => None
  | (k', v) :: d' => if decide (k' = k) then Some v else dict_lookup k d'
  end.

(** [G.nodes.get(n)]: the attribute dictionary stored for a node. *)
Definition node_attr (g : Graph) (n : Z) : option (option NodeAttr) :=
  dict_lookup n (_node g).

(** The elements of a list, each at the place of its first occurrence. *)
Fixpoint first_occurrences (l : list Z) : list Z :=
  match l with
  | [] => []
  | x :: l' => x :: filter (λ y, y ≠ x) (first_occurrences l')
  end.

(** The last row of the table that carries the id [n]. *)
Definition last_row (airports_df : list Airport) (n : Z) : option Airport :=
  last (filter (λ a, airport_id a = n) airports_df).

(** Some route of the list joins [u] and [v]. *)
Definition joined_by (routes_df : list Route) (u v : Z) : Prop :=
  ∃ r, r ∈ routes_df ∧ joins r u v.

(** The sum that [len(G.edges())] halves. *)
Definition edge_ends_sum (adj : gmap Z (gset Z)) : Z :=
  foldr (λ (item : Z * gset Z) acc, edge_ends item.1 item.2 + acc)
        0 (map_to_list adj).

(** An unordered pair of ids, the smaller id first. *)
Definition unordered (u v : Z) : Z * Z := (Z.min u v, Z.max u v).

(** The unordered pairs joined by a route with both ends in the table. *)
Definition joined_pairs (airports_df : list Airport) (routes_df : list Route)
  : gset (Z * Z) :=
  list_to_set
    ((λ r, unordered (src_id r) (dst_id r)) <$>
     filter (λ r, src_id r ∈ airport_ids airports_df ∧
                  dst_id r ∈ airport_ids airports_df) routes_df).

(** [v] can be reached from [u]. *)
Definition reachable (g : Graph) (u v : Z) : Prop := ∃ k, walk g u v k.

(** [reps] holds one node of every class of mutually reachable nodes. *)
Definition component_representatives (g : Graph) (reps : list Z) : Prop :=
  NoDup reps ∧
  (∀ r, r ∈ reps → r ∈ nodes g) ∧
  (∀ v, v ∈ nodes g → ∃ r, r ∈ reps ∧ reachable g r v) ∧
  (∀ r r', r ∈ reps → r' ∈ reps → reachable g r r' → r = r').

(** What the loop of [connected_components] knows after some nodes: [seen]
    holds the nodes reachable from the representatives found so far, which
    lie in different classes, and [count] is their number. *)
Definition components_inv (g : Graph) (seen : gset Z) (count : Z)
    (reps : list Z) : Prop :=
  count = Z.of_nat (length reps) ∧
  NoDup reps ∧
  (∀ r, r ∈ reps → r ∈ nodes g) ∧
  (∀ v, v ∈ seen ↔ ∃ r, r ∈ reps ∧ reachable g r v) ∧
  (∀ r r', r ∈ reps → r' ∈ reps → reachable g r r' → r = r').

(** The nodes that are their own neighbour. *)
Definition self_loop_nodes (g : Graph) : list Z :=
  filter (λ n, n ∈ default (∅ : gset Z) (_adj g !! n)) (nodes g).

(** ** AirportMapVisualizer.create_full_map *)





(** [max(3, min(12, 3 + (c / 50) * 9))] *)
Definition airport_size (c : Z) : R :=
  Rmax 3 (Rmin 12 (3 + (IZR c / 50) * 9)).




(** ** AirportMapVisualizer.create_route_analysis_map: the hubs *)

(** [needle in s] on strings. *)
Fixpoint contains (needle s : string) : bool :=
  match s with
  | EmptyString => String.prefix needle EmptyString
  | String _ s' => String.prefix needle s || contains needle s'
  end.

(** An entry of [hub_data]. *)
Record Hub : Type := mkHub {
  hub_id : Z;
  hub_name : string;
  hub_lat : R;
  hub_lon : R;
  hub_connections : Z
}.

Definition default_hub_airports : list string :=
  ["ATL"; "LAX"; "LHR"; "DXB"; "NRT"; "CDG"; "FRA"; "AMS"; "SIN"; "JFK"].

Section hubs.
(** [str.upper], which follows the Unicode case tables, is taken as given. *)
Variable upper : string → string.

(** The inner loop: the first code found in the name adds the airport and
    the [break] ends the loop. *)
Fixpoint hub_match_loop (g : Graph) (airport : Airport) (upper_name : string)
    (hub_airports : list string) (hub_data : list Hub) : result (list Hub) :=
  match hub_airports with
  | [] => Ok hub_data
  | hub :: hub_airports' =>
      if contains hub upper_name
      then connections ← connections g (airport_id airport);
           Ok (hub_data ++
               [mkHub (airport_id airport) (airport_name airport)
                      (airport_lat airport) (airport_lon airport) connections])
      else hub_match_loop g airport upper_name hub_airports' hub_data
  end.

Fixpoint hub_scan (g : Graph) (hub_airports : list string)
    (airports_df : list Airport) (hub_data : list Hub) : result (list Hub) :=
  match airports_df with
  | [] => Ok hub_data
  | airport :: airports' =>
      hub_data' ← hub_match_loop g airport (upper (airport_name airport))
                     hub_airports hub_data;
      hub_scan g hub_airports airports' hub_data'
  end.

(** [hub_data]: the airports whose name contains a hub code or, when there
    is none, the ten airports of [get_top_airports]. *)
Definition find_hubs (airports_df : list Airport) (g : Graph)
    (hub_airports : option (list string)) : result (list Hub) :=
  let hub_airports := default default_hub_airports hub_airports in
  hub_data ← hub_scan g hub_airports airports_df [];
  match hub_data with
  | [] =>
      rows ← get_top_airports airports_df g 10;
      mapM (λ item, connections ← connections g (airport_id item);
                    Ok (mkHub (airport_id item) (airport_name item)
                              (airport_lat item) (airport_lon item)
                              connections)) rows
  | _ => Ok hub_data
  end.

End hubs.





(** The entry of [hub_data] for an airport row. *)
Definition hub_of (g : Graph) (a : Airport) : Hub :=
  mkHub (airport_id a) (airport_name a) (airport_lat a) (airport_lon a)
        (degree g (airport_id a)).

(** ** data_processing/csv_cleaning.py *)

(** A file that can be opened is given by the rows that [csv.reader] yields
    from it, a written file by the rows handed to [csv.writer]; a missing
    input file is [None]. The counters a function prints at its end are kept
    with the rows it wrote. *)
Section csv_cleaning.
(** [float(s)] succeeds; [s.isdigit()]. Both follow Python's Unicode-aware
    rules and are taken as given. *)
Variable float_ok : string → bool.
Variable isdigit : string → bool.







End csv_cleaning.


(** * Graph construction *)

Lemma dict_set_keys {V} (k : Z) (v : V) (d : list (Z * V)) :
  (dict_set k v d).*1 = if decide (k ∈ d.*1) then d.*1 else d.*1 ++ [k].
Proof.
  induction d as [|[k' v'] d IH]; csimpl.
  - done.
  - destruct (decide (k' = k)) as [->|Hne]; csimpl.
    + rewrite decide_True; [done | left].
    + rewrite IH. destruct (decide (k ∈ d.*1)) as [Hin|Hnin].
      * rewrite decide_True; [done | by right].
      * rewrite decide_False; [done |].
        intros [?|?]%elem_of_cons; congruence.
Qed.

Lemma has_node_spec (g : Graph) (n : Z) : has_node g n = true ↔ n ∈ nodes g.
Proof. unfold has_node. by rewrite bool_decide_eq_true. Qed.

Lemma nodes_add_node (n : Z) (a : NodeAttr) (g : Graph) :
  nodes (add_node n a g) =
  if decide (n ∈ nodes g) then nodes g else nodes g ++ [n].
Proof.
  unfold add_node, nodes. destruct (has_node g n); simpl; apply dict_set_keys.
Qed.

Lemma elem_of_nodes_add_node (n m : Z) (a : NodeAttr) (g : Graph) :
  m ∈ nodes (add_node n a g) ↔ m ∈ nodes g ∨ m = n.
Proof.
  rewrite nodes_add_node. destruct (decide (n ∈ nodes g)) as [Hn|Hn].
  - split; [by left | by intros [?| ->]].
  - by rewrite elem_of_app, list_elem_of_singleton.
Qed.

Lemma elem_of_nodes_add_airports (l : list Airport) (g : Graph) (m : Z) :
  m ∈ nodes (foldl add_airport g l) ↔ m ∈ nodes g ∨ m ∈ airport_ids l.
Proof.
  unfold airport_ids. revert g. induction l as [|a l IH]; intros g; csimpl.
  - rewrite elem_of_nil. tauto.
  - rewrite IH. unfold add_airport at 1. rewrite elem_of_nodes_add_node.
    rewrite elem_of_cons. tauto.
Qed.

Lemma ensure_node_id (n : Z) (g : Graph) :
  n ∈ nodes g → ensure_node n g = g.
Proof. intros H. unfold ensure_node. by rewrite (proj2 (has_node_spec g n) H). Qed.

Lemma add_route_unfold (g : Graph) (r : Route) :
  add_route g r =
  if decide (src_id r ∈ nodes g ∧ dst_id r ∈ nodes g)
  then mkGraph (_node g)
               (adj_add (dst_id r) (src_id r)
                  (adj_add (src_id r) (dst_id r) (_adj g)))
  else g.
Proof.
  unfold add_route.
  destruct (decide (src_id r ∈ nodes g ∧ dst_id r ∈ nodes g)) as [H|H].
  - destruct H as [Hs Hd].
    rewrite (proj2 (has_node_spec g _) Hs), (proj2 (has_node_spec g _) Hd).
    simpl. unfold add_edge.
    by rewrite (ensure_node_id _ g Hs), (ensure_node_id _ g Hd).
  - destruct (has_node g (src_id r)) eqn:Hs; [|done].
    destruct (has_node g (dst_id r)) eqn:Hd; [|done].
    apply has_node_spec in Hs, Hd. tauto.
Qed.

Lemma nodes_add_route (g : Graph) (r : Route) :
  nodes (add_route g r) = nodes g.
Proof. rewrite add_route_unfold. by case_decide. Qed.

Lemma nodes_add_routes (l : list Route) (g : Graph) :
  nodes (foldl add_route g l) = nodes g.
Proof.
  revert g. induction l as [|r l IH]; intros g; simpl; [done|].
  by rewrite IH, nodes_add_route.
Qed.

Lemma elem_of_nodes_build (airports_df : list Airport) (routes_df : list Route)
    (n : Z) :
  n ∈ nodes (_build_graph airports_df routes_df) ↔ n ∈ airport_ids airports_df.
Proof.
  unfold _build_graph. rewrite nodes_add_routes, elem_of_nodes_add_airports.
  unfold nodes at 1. simpl. rewrite elem_of_nil. tauto.
Qed.

Lemma has_edge_adj_add (a b : Z) (nd : list (Z * option NodeAttr))
    (adj : gmap Z (gset Z)) (u v : Z) :
  has_edge (mkGraph nd (adj_add a b adj)) u v ↔
  has_edge (mkGraph nd adj) u v ∨ (u = a ∧ v = b).
Proof.
  unfold has_edge, adj_add. simpl. split.
  - intros (s & Hs & Hv). destruct (decide (u = a)) as [->|Hne].
    + rewrite lookup_insert_eq in Hs. injection Hs as <-.
      apply elem_of_union in Hv as [Hv|Hv].
      * left. destruct (adj !! a) as [s|]; simpl in Hv; [by exists s|].
        by apply not_elem_of_empty in Hv.
      * right. by apply elem_of_singleton in Hv.
    + rewrite lookup_insert_ne in Hs by done. left. by exists s.
  - intros [(s & Hs & Hv)|[-> ->]].
    + destruct (decide (u = a)) as [->|Hne].
      * rewrite lookup_insert_eq. eexists; split; [done|].
        rewrite Hs. simpl. by apply elem_of_union_l.
      * rewrite lookup_insert_ne by done. by exists s.
    + rewrite lookup_insert_eq. eexists; split; [done|].
      apply elem_of_union_r. by apply elem_of_singleton.
Qed.

Lemma is_Some_adj_add (a b n : Z) (adj : gmap Z (gset Z)) :
  is_Some (adj_add a b adj !! n) ↔ is_Some (adj !! n) ∨ n = a.
Proof.
  unfold adj_add. destruct (decide (n = a)) as [->|Hne].
  - rewrite lookup_insert_eq. split; [by right | by eexists].
  - rewrite lookup_insert_ne by done. naive_solver.
Qed.

(** What one route does to the edges. *)
Lemma has_edge_add_route (g : Graph) (r : Route) (u v : Z) :
  has_edge (add_route g r) u v ↔
  has_edge g u v ∨
  (src_id r ∈ nodes g ∧ dst_id r ∈ nodes g ∧ joins r u v).
Proof.
  rewrite add_route_unfold. unfold joins.
  destruct (decide (src_id r ∈ nodes g ∧ dst_id r ∈ nodes g)) as [H|H].
  - rewrite !has_edge_adj_add. destruct g; simpl in *. tauto.
  - tauto.
Qed.

Lemma has_edge_add_routes (l : list Route) (g : Graph) (u v : Z) :
  has_edge (foldl add_route g l) u v ↔
  has_edge g u v ∨
  ∃ r, r ∈ l ∧ src_id r ∈ nodes g ∧ dst_id r ∈ nodes g ∧ joins r u v.
Proof.
  revert g. induction l as [|r l IH]; intros g; simpl.
  - split; [by left|]. intros [?|(r & Hr & _)]; [done|].
    by apply elem_of_nil in Hr.
  - rewrite IH, has_edge_add_route, nodes_add_route. split.
    + intros [[?|?]|(r' & ? & ?)]; [by left| |].
      * right. exists r. split; [left | done].
      * right. exists r'. split; [by right | done].
    + intros [?|(r' & [->|?]%elem_of_cons & ?)]; [by left; left| |].
      * by left; right.
      * right. by exists r'.
Qed.

Lemma no_edge_add_airports (l : list Airport) (g : Graph) :
  (∀ u v, ¬ has_edge g u v) →
  ∀ u v, ¬ has_edge (foldl add_airport g l) u v.
Proof.
  revert g. induction l as [|a l IH]; intros g Hg; simpl; [done|].
  apply IH. intros u v (s & Hs & Hv).
  unfold add_airport, add_node in Hs. destruct (has_node g (airport_id a)).
  - apply (Hg u v). by exists s.
  - simpl in Hs. destruct (decide (u = airport_id a)) as [->|Hne].
    + rewrite lookup_insert_eq in Hs. injection Hs as <-.
      by apply not_elem_of_empty in Hv.
    + rewrite lookup_insert_ne in Hs by done. apply (Hg u v). by exists s.
Qed.

Lemma no_edge_empty_graph (u v : Z) : ¬ has_edge empty_graph u v.
Proof. intros (s & Hs & _). simpl in Hs. by rewrite lookup_empty in Hs. Qed.

(** The edges of the built graph: the routes with both ends in the table. *)
Lemma has_edge_build (airports_df : list Airport) (routes_df : list Route)
    (u v : Z) :
  has_edge (_build_graph airports_df routes_df) u v ↔
  ∃ r, r ∈ routes_df ∧ resolvable airports_df r ∧ joins r u v.
Proof.
  unfold _build_graph. rewrite has_edge_add_routes. unfold resolvable.
  pose proof (elem_of_nodes_build airports_df []) as Hn.
  unfold _build_graph in Hn. simpl in Hn. split.
  - intros [He|(r & Hr & Hs & Hd & Hj)].
    + by apply no_edge_add_airports in He; [|apply no_edge_empty_graph].
    + exists r. by rewrite <- !Hn.
  - intros (r & Hr & [Hs Hd] & Hj). right. exists r. by rewrite !Hn.
Qed.

(** ** The class invariant holds for every built graph *)

Lemma graph_wf_empty : graph_wf empty_graph.
Proof.
  split.
  - apply NoDup_nil_2.
  - intros n. unfold nodes. simpl. rewrite lookup_empty, elem_of_nil.
    split; [done | by intros [? ?]].
  - intros u v H. by apply no_edge_empty_graph in H.
  - intros u v H. by apply no_edge_empty_graph in H.
Qed.

Lemma graph_wf_add_node (n : Z) (a : NodeAttr) (g : Graph) :
  graph_wf g → graph_wf (add_node n a g).
Proof.
  intros [Hnd Hdom Hcl Hsym].
  assert (Hkeys := nodes_add_node n a g).
  unfold add_node in *. destruct (has_node g n) eqn:Hn.
  - apply has_node_spec in Hn. rewrite decide_True in Hkeys by done.
    split; unfold has_edge in *; simpl; rewrite ?Hkeys; try done.
  - assert (n ∉ nodes g) as Hnin.
    { intros H%has_node_spec. congruence. }
    rewrite decide_False in Hkeys by done.
    assert (∀ u v, has_edge (mkGraph (dict_set n (Some a) (_node g))
                               (<[n:=∅]> (_adj g))) u v →
                   u ≠ n ∧ has_edge g u v) as Hold.
    { intros u v (s & Hs & Hv). simpl in Hs.
      destruct (decide (u = n)) as [->|Hne].
      - rewrite lookup_insert_eq in Hs. injection Hs as <-.
        by apply not_elem_of_empty in Hv.
      - rewrite lookup_insert_ne in Hs by done. split; [done | by exists s]. }
    split; rewrite ?Hkeys.
    + apply NoDup_app. split_and!; [done | | apply NoDup_singleton].
      intros x Hx ->%list_elem_of_singleton. done.
    + intros m. simpl. rewrite elem_of_app, list_elem_of_singleton.
      destruct (decide (m = n)) as [->|Hne].
      * rewrite lookup_insert_eq. split; [by eexists | by right].
      * rewrite lookup_insert_ne by done. rewrite <- Hdom. naive_solver.
    + intros u v [_ He]%Hold. apply elem_of_app. left. by eapply Hcl.
    + intros u v [Hne He]%Hold. pose proof (Hcl _ _ He) as Hv.
      destruct (Hsym _ _ He) as (s & Hs & Hu). exists s. simpl.
      rewrite lookup_insert_ne; [done | congruence].
Qed.

Lemma graph_wf_add_route (g : Graph) (r : Route) :
  graph_wf g → graph_wf (add_route g r).
Proof.
  intros Hwf. pose proof (has_edge_add_route g r) as Hedge.
  pose proof (nodes_add_route g r) as Hkeys.
  destruct Hwf as [Hnd Hdom Hcl Hsym]. split; rewrite ?Hkeys; [done | | |].
  - intros n. rewrite add_route_unfold.
    destruct (decide (src_id r ∈ nodes g ∧ dst_id r ∈ nodes g)) as [H|H];
      [|apply Hdom].
    simpl. rewrite !is_Some_adj_add, <- Hdom. naive_solver.
  - intros u v [He|(Hs & Hd & [[-> ->]|[-> ->]])]%Hedge; eauto.
  - intros u v [He|(Hs & Hd & Hj)]%Hedge; apply Hedge; [left; eauto|].
    right. split_and!; [done..|]. unfold joins in *. tauto.
Qed.

Lemma graph_wf_build (airports_df : list Airport) (routes_df : list Route) :
  graph_wf (_build_graph airports_df routes_df).
Proof.
  unfold _build_graph.
  assert (graph_wf (foldl add_airport empty_graph airports_df)) as H.
  { generalize graph_wf_empty. generalize empty_graph.
    induction airports_df as [|a l IH]; intros g Hg; simpl; [done|].
    apply IH. by apply graph_wf_add_node. }
  revert H. generalize (foldl add_airport empty_graph airports_df).
  induction routes_df as [|r l IH]; intros g Hg; simpl; [done|].
  apply IH. by apply graph_wf_add_route.
Qed.

(** C1: [_build_graph] is a total function (it cannot raise); its nodes are
    the ids of the airport table; a route contributes an edge exactly when
    both its ends are such ids, every other route leaves no trace; hence both
    ends of every edge of the built graph are nodes. *)
Theorem build_graph_edges_join_nodes (airports_df : list Airport)
    (routes_df : list Route) :
  let g := _build_graph airports_df routes_df in
  (∀ n, n ∈ nodes g ↔ n ∈ airport_ids airports_df) ∧
  (∀ u v, has_edge g u v ↔
          ∃ r, r ∈ routes_df ∧ resolvable airports_df r ∧ joins r u v) ∧
  (∀ u v, has_edge g u v → u ∈ nodes g ∧ v ∈ nodes g).
Proof.
  intros g. split_and!.
  - apply elem_of_nodes_build.
  - apply has_edge_build.
  - intros u v He. pose proof (graph_wf_build airports_df routes_df) as Hwf.
    split; [|by eapply wf_closed].
    eapply wf_closed; [done|]. by eapply wf_sym.
Qed.

(** C10: a route from an airport of the table to itself becomes a self-loop:
    the node is one of its own neighbours, and the connection count that
    ranking and statistics read for it is one more than the number of its
    other neighbours. *)
Theorem self_loop_counts_itself (airports_df : list Airport)
    (routes_df : list Route) (r : Route) :
  r ∈ routes_df →
  src_id r = dst_id r →
  src_id r ∈ airport_ids airports_df →
  let g := _build_graph airports_df routes_df in
  let u := src_id r in
  has_edge g u u ∧
  ∃ nbrs, neighbors g u = Ok nbrs ∧ u ∈ nbrs ∧
          connections g u = Ok (1 + Z.of_nat (size (nbrs ∖ {[u]}))).
Proof.
  intros Hr Heq Hin g u.
  assert (has_edge g u u) as He.
  { apply has_edge_build. exists r. unfold resolvable, joins.
    rewrite <- Heq. by split_and!; [..|left]. }
  split; [done|]. destruct He as (nbrs & Hs & Hu). exists nbrs.
  unfold connections, neighbors. rewrite Hs. split_and!; [done..|].
  simpl. f_equal.
  assert (nbrs = {[u]} ∪ nbrs ∖ {[u]}) as Hsplit.
  { apply set_eq. intros x. rewrite elem_of_union, elem_of_difference,
      elem_of_singleton. destruct (decide (x = u)) as [->|]; naive_solver. }
  rewrite Hsplit at 1. rewrite size_union by set_solver.
  rewrite size_singleton. lia.
Qed.

Lemma self_loop_counts_itself_witness :
  let airports_df := [mkAirport 3 "C" 0 0; mkAirport 4 "D" 0 0] in
  let routes_df := [mkRoute 3 4 "x"; mkRoute 3 3 "y"] in
  let g := _build_graph airports_df routes_df in
  has_edge g 3 3 ∧
  ∃ nbrs, neighbors g 3 = Ok nbrs ∧ 3 ∈ nbrs ∧
          connections g 3 = Ok (1 + Z.of_nat (size (nbrs ∖ {[3]}))).
Proof.
  intros airports_df routes_df g.
  apply (self_loop_counts_itself airports_df routes_df (mkRoute 3 3 "y")).
  - unfold routes_df. set_solver.
  - reflexivity.
  - unfold airports_df, airport_ids. simpl. set_solver.
Defined.

(** * Statistics of the empty graph *)

(** C4, as the code has it: on a graph without nodes the statistics raise the
    [ValueError] of [max()] over an empty sequence; [np.mean] of the empty
    list did not raise before it, and nothing is returned. *)
Theorem statistics_empty_graph_raises_ValueError (g : Graph) :
  nodes g = [] → get_network_statistics g = Raise ValueError.
Proof. intros H. unfold get_network_statistics. by rewrite H. Qed.

Lemma statistics_empty_graph_raises_ValueError_witness :
  get_network_statistics (_build_graph [] [mkRoute 4 5 "x"]) = Raise ValueError.
Proof.
  apply (statistics_empty_graph_raises_ValueError
           (_build_graph [] [mkRoute 4 5 "x"])).
  reflexivity.
Defined.

(** C4, as stated, fails: the exception raised on the empty graph is not an
    [EmptyGraphError]. *)
Lemma statistics_empty_graph_not_EmptyGraphError :
  ¬ ∃ e, get_network_statistics (_build_graph [] []) = Raise e ∧
         exn_name e = "EmptyGraphError".
Proof.
  intros (e & He & Hname). vm_compute in He.
  injection He as <-. discriminate Hname.
Qed.

(** * Ranking *)

Lemma dict_get_dict_set (x i c : Z) (d : list (Z * Z)) :
  dict_get x (dict_set i c d) = if decide (i = x) then c else dict_get x d.
Proof.
  induction d as [|[k v] d IH]; simpl.
  - done.
  - destruct (decide (k = i)) as [->|Hki]; simpl.
    + by destruct (decide (i = x)).
    + rewrite IH. destruct (decide (k = x)) as [->|Hkx]; [|done].
      by rewrite decide_False.
Qed.

Lemma connections_degree (g : Graph) (i : Z) :
  is_Some (_adj g !! i) → connections g i = Ok (degree g i).
Proof.
  intros [s Hs]. unfold connections, neighbors, degree. by rewrite Hs.
Qed.

(** The dictionary [airport_connections] once the loop has run. *)
Lemma count_connections_spec (g : Graph) (ids : list Z) (d : list (Z * Z)) :
  (∀ i, i ∈ ids → is_Some (_adj g !! i)) →
  NoDup (d.*1 ++ ids) →
  ∃ d', count_connections g ids d = Ok d' ∧
        d'.*1 = d.*1 ++ ids ∧
        ∀ x, dict_get x d' =
             if decide (x ∈ ids) then degree g x else dict_get x d.
Proof.
  revert d. induction ids as [|i ids IH]; intros d Hadj Hnd;
    cbn [count_connections].
  - exists d. split_and!; [done | by rewrite app_nil_r |].
    intros x. rewrite decide_False; [done | apply not_elem_of_nil].
  - rewrite connections_degree by (apply Hadj; left). cbn [mbind result_bind].
    assert (i ∉ d.*1) as Hi.
    { apply NoDup_app in Hnd as (_ & Hdis & _). intros H.
      apply (Hdis i H). left. }
    assert ((dict_set i (degree g i) d).*1 = d.*1 ++ [i]) as Hkeys.
    { rewrite dict_set_keys. by rewrite decide_False. }
    destruct (IH (dict_set i (degree g i) d)) as (d' & Hrun & Hk & Hget).
    + intros j Hj. apply Hadj. by right.
    + rewrite Hkeys, <- app_assoc. done.
    + exists d'. split_and!; [done | |].
      * rewrite Hk, Hkeys, <- app_assoc. done.
      * intros x. rewrite Hget, dict_get_dict_set.
        apply NoDup_app in Hnd as (_ & _ & [Hi' _]%NoDup_cons).
        destruct (decide (x ∈ ids)) as [Hx|Hx].
        -- rewrite decide_True; [done | by right].
        -- destruct (decide (i = x)) as [->|Hne].
           ++ rewrite decide_True; [done | left].
           ++ rewrite decide_False; [done|].
              intros [?|?]%elem_of_cons; congruence.
Qed.

Lemma insert_desc_perm (key : Z → Z) (x : Z) (l : list Z) :
  insert_desc key x l ≡ₚ x :: l.
Proof.
  induction l as [|y l IH]; simpl; [done|].
  destruct (decide (key x < key y)); [|done].
  rewrite IH. apply Permutation_swap.
Qed.

Lemma sorted_reverse_perm (key : Z → Z) (l : list Z) :
  sorted_reverse key l ≡ₚ l.
Proof.
  induction l as [|x l IH]; simpl; [done|].
  by rewrite insert_desc_perm, IH.
Qed.

Lemma insert_desc_ext (key key' : Z → Z) (x : Z) (l : list Z) :
  (∀ y, y ∈ x :: l → key y = key' y) →
  insert_desc key x l = insert_desc key' x l.
Proof.
  induction l as [|y l IH]; intros H; simpl; [done|].
  rewrite <- (H x) by left. rewrite <- (H y) by (right; left).
  destruct (decide (key x < key y)); [|done].
  f_equal. apply IH. intros z [->|?]%elem_of_cons; apply H;
    [left | by do 2 right].
Qed.

Lemma sorted_reverse_ext (key key' : Z → Z) (l : list Z) :
  (∀ y, y ∈ l → key y = key' y) →
  sorted_reverse key l = sorted_reverse key' l.
Proof.
  induction l as [|x l IH]; intros H; simpl; [done|].
  rewrite <- IH by (intros; apply H; by right).
  apply insert_desc_ext. intros y Hy. apply H.
  by rewrite <- (sorted_reverse_perm key l).
Qed.

Lemma before_cons (a x y : Z) (l : list Z) :
  before l x y → before (a :: l) x y.
Proof. intros (l1 & l2 & l3 & ->). by exists (a :: l1), l2, l3. Qed.

Lemma before_head (a y : Z) (l : list Z) : y ∈ l → before (a :: l) a y.
Proof. intros (l2 & l3 & ->)%list_elem_of_split. by exists [], l2, l3. Qed.

Lemma ranks_above_key (key : Z → Z) (l : list Z) (x y : Z) :
  ranks_above key l x y → key y ≤ key x.
Proof. intros [?|[? _]]; lia. Qed.

Lemma StronglySorted_mono {A} (R R' : A → A → Prop) (l : list A) :
  (∀ x y, R x y → R' x y) → StronglySorted R l → StronglySorted R' l.
Proof.
  intros HR. induction 1 as [|x l _ IH Hx]; constructor; [done|].
  eapply Forall_impl; [done|]. intros y. apply HR.
Qed.

(** Inserting keeps the ranking order, provided the new element was before
    the others in the list being sorted. *)
Lemma insert_desc_sorted (key : Z → Z) (l0 : list Z) (a : Z) (s : list Z) :
  StronglySorted (ranks_above key l0) s →
  (∀ y, y ∈ s → before l0 a y) →
  StronglySorted (ranks_above key l0) (insert_desc key a s).
Proof.
  induction 1 as [|y s Hs IH Hy]; intros Hbefore; simpl.
  - repeat constructor.
  - destruct (decide (key a < key y)) as [Hlt|Hge].
    + constructor.
      * apply IH. intros z Hz. apply Hbefore. by right.
      * rewrite insert_desc_perm. constructor; [by left | done].
    + constructor; [by constructor|].
      assert (∀ z, z ∈ y :: s → key z ≤ key a) as Hle.
      { intros z [->|Hz]%elem_of_cons; [lia|].
        rewrite Forall_forall in Hy.
        pose proof (ranks_above_key _ _ _ _ (Hy z Hz)). lia. }
      apply Forall_forall. intros z Hz. specialize (Hle z Hz).
      destruct (decide (key z = key a)) as [Heq|Hne].
      * right. split; [done | by apply Hbefore].
      * left. lia.
Qed.

(** [sorted(.., reverse=True)] ranks by key, ties in the order of the list
    it was given. *)
Lemma sorted_reverse_sorted (key : Z → Z) (l : list Z) :
  StronglySorted (ranks_above key l) (sorted_reverse key l).
Proof.
  induction l as [|a l IH]; simpl; [constructor|].
  apply insert_desc_sorted.
  - eapply StronglySorted_mono; [|exact IH].
    intros x y [?|[? ?]]; [by left|]. right. split; [done|].
    by apply before_cons.
  - intros y Hy. apply before_head. by rewrite <- (sorted_reverse_perm key l).
Qed.

Lemma nodes_add_airports_nodup (l : list Airport) (g : Graph) :
  NoDup (nodes g ++ airport_ids l) →
  nodes (foldl add_airport g l) = nodes g ++ airport_ids l.
Proof.
  unfold airport_ids. revert g.
  induction l as [|a l IH]; intros g Hnd; csimpl.
  - by rewrite app_nil_r.
  - assert (nodes (add_airport g a) = nodes g ++ [airport_id a]) as Hk.
    { unfold add_airport. rewrite nodes_add_node, decide_False; [done|].
      apply NoDup_app in Hnd as (_ & Hdis & _). intros H.
      apply (Hdis _ H). left. }
    rewrite IH; rewrite Hk, <- app_assoc; done.
Qed.

(** With pairwise distinct ids the nodes are the ids, in table order. *)
Lemma nodes_build_nodup (airports_df : list Airport) (routes_df : list Route) :
  NoDup (airport_ids airports_df) →
  nodes (_build_graph airports_df routes_df) = airport_ids airports_df.
Proof.
  intros Hnd. unfold _build_graph.
  rewrite nodes_add_routes, nodes_add_airports_nodup; done.
Qed.

Lemma top_airports_ids_spec (g : Graph) (n : Z) :
  graph_wf g → 0 ≤ n →
  top_airports_ids g n =
  Ok (take (Z.to_nat n) (sorted_reverse (degree g) (nodes g))).
Proof.
  intros Hwf Hn. unfold top_airports_ids.
  destruct (count_connections_spec g (nodes g) []) as (d & -> & Hk & Hget).
  - intros i Hi. by apply (wf_dom g Hwf).
  - apply (wf_nodup g Hwf).
  - simpl in Hk. cbn [mbind result_bind]. f_equal.
    unfold slice_to. rewrite decide_True by done. rewrite Hk. f_equal.
    apply sorted_reverse_ext. intros y Hy. rewrite Hget.
    by rewrite decide_True.
Qed.

Lemma isin_rows_all (ids : list Z) (df : list Airport) :
  (∀ a, a ∈ df → airport_id a ∈ ids) → isin_rows ids df = df.
Proof.
  unfold isin_rows. induction df as [|a df IH]; intros H; [done|].
  rewrite filter_cons, decide_True by (apply H; left).
  f_equal. apply IH. intros b Hb. apply H. by right.
Qed.

Lemma isin_rows_length (ids : list Z) (df : list Airport) :
  NoDup ids → NoDup (airport_ids df) →
  (∀ x, x ∈ ids → x ∈ airport_ids df) →
  length (isin_rows ids df) = length ids.
Proof.
  intros Hids Hdf Hsub.
  rewrite <- (length_fmap airport_id). apply Permutation_length.
  apply NoDup_Permutation; [|done|].
  - eapply sublist_NoDup; [exact Hdf|]. unfold airport_ids.
    apply fmap_sublist, sublist_filter.
  - intros x. unfold isin_rows. rewrite list_elem_of_fmap. split.
    + intros (a & -> & [Ha _]%list_elem_of_filter). done.
    + intros Hx. pose proof (Hsub x Hx) as Hin.
      apply list_elem_of_fmap in Hin as (a & -> & Ha). exists a. split; [done|]. by apply list_elem_of_filter.
Qed.

(** C5, as the code has it: for [n ≥ 0], [get_top_airports] returns the rows
    of the airport table, in table order, whose id is among the [n] nodes
    ranked first by neighbour count (ties: the node inserted earlier), or is
    any node when there are fewer than [n]. With pairwise distinct ids in the
    table these are [min n (number of rows)] rows. *)
Theorem top_airports_are_table_rows (airports_df : list Airport)
    (routes_df : list Route) (n : Z) :
  0 ≤ n →
  let g := _build_graph airports_df routes_df in
  ∃ top,
    top_airports_ids g n = Ok top ∧
    get_top_airports airports_df g n = Ok (isin_rows top airports_df) ∧
    NoDup top ∧
    (∀ x, x ∈ top → x ∈ nodes g) ∧
    length top = (Z.to_nat n `min` length (nodes g))%nat ∧
    (∀ x y, x ∈ top → y ∈ nodes g → y ∉ top →
            ranks_above (degree g) (nodes g) x y) ∧
    isin_rows top airports_df `sublist_of` airports_df ∧
    (∀ a, a ∈ isin_rows top airports_df ↔
          a ∈ airports_df ∧ airport_id a ∈ top) ∧
    ((length (nodes g) ≤ Z.to_nat n)%nat →
     isin_rows top airports_df = airports_df) ∧
    (NoDup (airport_ids airports_df) →
     nodes g = airport_ids airports_df ∧
     length (isin_rows top airports_df)
     = (Z.to_nat n `min` length airports_df)%nat).
Proof.
  intros Hn g.
  pose proof (graph_wf_build airports_df routes_df) as Hwf. fold g in Hwf.
  set (ranking := sorted_reverse (degree g) (nodes g)).
  pose proof (sorted_reverse_perm (degree g) (nodes g)) as Hperm.
  pose proof (sorted_reverse_sorted (degree g) (nodes g)) as Hsorted.
  fold ranking in Hperm, Hsorted.
  assert (NoDup ranking) as Hnd by (rewrite Hperm; apply (wf_nodup g Hwf)).
  exists (take (Z.to_nat n) ranking).
  assert (∀ x, x ∈ take (Z.to_nat n) ranking → x ∈ nodes g) as Hsub.
  { intros x Hx. rewrite <- Hperm. by eapply subseteq_take. }
  assert (NoDup (take (Z.to_nat n) ranking)) as Hndtop.
  { eapply sublist_NoDup; [exact Hnd | apply sublist_take]. }
  assert (length (take (Z.to_nat n) ranking)
          = (Z.to_nat n `min` length (nodes g))%nat) as Hlen.
  { by rewrite length_take, Hperm. }
  split_and!; try done.
  - by apply top_airports_ids_spec.
  - unfold get_top_airports. by rewrite top_airports_ids_spec.
  - intros x y Hx Hy Hny.
    rewrite <- (take_drop (Z.to_nat n) ranking) in Hsorted.
    eapply StronglySorted_app_1_elem_of; [exact Hsorted | exact Hx |].
    rewrite <- Hperm, <- (take_drop (Z.to_nat n) ranking) in Hy.
    apply elem_of_app in Hy as [?|?]; done.
  - apply sublist_filter.
  - intros a. unfold isin_rows. rewrite list_elem_of_filter. tauto.
  - intros Hge. apply isin_rows_all. intros a Ha.
    rewrite take_ge by (by rewrite Hperm). rewrite Hperm.
    apply elem_of_nodes_build. by apply list_elem_of_fmap_2.
  - intros Hids.
    pose proof (nodes_build_nodup airports_df routes_df Hids) as Hnodes.
    fold g in Hnodes. split; [done|].
    rewrite isin_rows_length; [| done | done |].
    + rewrite Hlen, Hnodes. unfold airport_ids. by rewrite length_fmap.
    + intros x Hx. rewrite <- Hnodes. by apply Hsub.
Qed.

Lemma top_airports_are_table_rows_witness :
  let g := _build_graph example_airports example_routes in
  ∃ top,
    top_airports_ids g 2 = Ok top ∧
    get_top_airports example_airports g 2
    = Ok (isin_rows top example_airports) ∧
    NoDup top ∧
    (∀ x, x ∈ top → x ∈ nodes g) ∧
    length top = (Z.to_nat 2 `min` length (nodes g))%nat ∧
    (∀ x y, x ∈ top → y ∈ nodes g → y ∉ top →
            ranks_above (degree g) (nodes g) x y) ∧
    isin_rows top example_airports `sublist_of` example_airports ∧
    (∀ a, a ∈ isin_rows top example_airports ↔
          a ∈ example_airports ∧ airport_id a ∈ top) ∧
    ((length (nodes g) ≤ Z.to_nat 2)%nat →
     isin_rows top example_airports = example_airports) ∧
    (NoDup (airport_ids example_airports) →
     nodes g = airport_ids example_airports ∧
     length (isin_rows top example_airports)
     = (Z.to_nat 2 `min` length example_airports)%nat).
Proof.
  apply (top_airports_are_table_rows example_airports example_routes 2). lia.
Defined.

(** C5, as stated, fails twice. On the example tables the two rows returned
    for [n = 2] are those of airports [1] and [2], with one and two
    connections: not in descending order. On a table that repeats an id, two
    rows are returned for [n = 1]. *)
Lemma top_airports_neither_ranked_nor_bounded :
  (¬ ∃ rows,
       get_top_airports example_airports
         (_build_graph example_airports example_routes) 2 = Ok rows ∧
       sorted_desc (degree (_build_graph example_airports example_routes))
                   (airport_id <$> rows)) ∧
  (¬ ∃ rows,
       get_top_airports repeated_airports
         (_build_graph repeated_airports []) 1 = Ok rows ∧
       Z.of_nat (length rows) ≤ 1).
Proof.
  split.
  - intros (rows & Hrows & Hsorted).
    assert (get_top_airports example_airports
              (_build_graph example_airports example_routes) 2
            = Ok [mkAirport 1 "A" 0 0; mkAirport 2 "B" 0 0]) as Hrun
      by (vm_compute; reflexivity).
    rewrite Hrun in Hrows. injection Hrows as <-.
    specialize (Hsorted 0%nat 1%nat 1 2).
    vm_compute in Hsorted. apply Hsorted; done || lia.
  - intros (rows & Hrows & Hlen).
    assert (get_top_airports repeated_airports
              (_build_graph repeated_airports []) 1
            = Ok repeated_airports) as Hrun by (vm_compute; reflexivity).
    rewrite Hrun in Hrows. injection Hrows as <-. simpl in Hlen. lia.
Qed.

(** * Breadth-first search computes hop distances *)

Section bfs.
Context (g : Graph) (Hwf : graph_wf g).

Lemma has_edge_lookup (u v : Z) :
  has_edge g u v ↔ v ∈ default (∅ : gset Z) (_adj g !! u).
Proof.
  unfold has_edge. destruct (_adj g !! u) as [s|]; simpl.
  - split; [by intros (? & [= <-] & ?) | by exists s].
  - split; [by intros (? & [=] & _) | by intros ?%not_elem_of_empty].
Qed.

Lemma walk_node_l (u v : Z) (k : nat) : walk g u v k → u ∈ nodes g.
Proof. by induction 1. Qed.

Lemma walk_node_r (u v : Z) (k : nat) : walk g u v k → v ∈ nodes g.
Proof. destruct 1; [done|]. by eapply (wf_closed g Hwf). Qed.

Lemma walk_app (u v w : Z) (j k : nat) :
  walk g u v j → walk g v w k → walk g u w (j + k).
Proof.
  intros Huv. induction 1 as [|w' x k Hw IH He].
  - by rewrite Nat.add_0_r.
  - rewrite Nat.add_succ_r. eapply walk_step; [by apply IH | done].
Qed.

Lemma walk_sym (u v : Z) (k : nat) : walk g u v k → walk g v u k.
Proof.
  induction 1 as [|v w k Hw IH He]; [by constructor|].
  apply (walk_app w v u 1 k); [|done].
  eapply walk_step; [|by apply (wf_sym g Hwf)].
  constructor. by eapply (wf_closed g Hwf).
Qed.

Lemma walk_0_inv (u v : Z) : walk g u v 0 → u = v.
Proof. by inversion 1. Qed.

Lemma walk_S_inv (u w : Z) (k : nat) :
  walk g u w (S k) → ∃ v, walk g u v k ∧ has_edge g v w.
Proof. inversion 1; subst. eauto. Qed.

Lemma hop_distance_unique (u v : Z) (j k : nat) :
  hop_distance g u v j → hop_distance g u v k → j = k.
Proof.
  intros [Hj Hminj] [Hk Hmink].
  pose proof (Hminj _ Hk). pose proof (Hmink _ Hj). lia.
Qed.

(** The node before the last on a shortest walk is one hop nearer. *)
Lemma hop_distance_pred (s v : Z) (k : nat) :
  hop_distance g s v (S k) → ∃ u, hop_distance g s u k ∧ has_edge g u v.
Proof.
  intros [Hw Hmin]. apply walk_S_inv in Hw as (u & Hu & He).
  exists u. split; [|done]. split; [done|].
  intros k' Hk'. assert (walk g s v (S k')) as Hv by by eapply walk_step.
  apply Hmin in Hv. lia.
Qed.

Section from_source.
Context (s : Z).

Lemma next_level_spec (k : nat) (seen thislevel : gset Z) (v : Z) :
  level_inv g s k seen thislevel →
  v ∈ next_level (_adj g) seen thislevel ↔ hop_distance g s v (S k).
Proof.
  intros [Hseen Hthis]. unfold next_level.
  rewrite elem_of_difference, elem_of_set_bind. split.
  - intros [(u & Hu & Huv) Hnew].
    apply Hthis in Hu as [Hu _]. apply has_edge_lookup in Huv.
    split; [by eapply walk_step|].
    intros k' Hk'. destruct (decide (k' ≤ k)%nat) as [Hle|]; [|lia].
    destruct Hnew. apply Hseen. eauto.
  - intros Hv. pose proof Hv as [Hw Hmin].
    destruct (hop_distance_pred _ _ _ Hv) as (u & Hu & He).
    split.
    + exists u. split; [by apply Hthis | by apply has_edge_lookup].
    + intros (j & Hj & Hwj)%Hseen. apply Hmin in Hwj. lia.
Qed.

Lemma level_inv_next (k : nat) (seen thislevel : gset Z) :
  level_inv g s k seen thislevel →
  level_inv g s (S k) (seen ∪ next_level (_adj g) seen thislevel)
            (next_level (_adj g) seen thislevel).
Proof.
  intros Hinv. split; [|intros v; by apply next_level_spec].
  pose proof Hinv as [Hseen _]. intros v. rewrite elem_of_union. split.
  - intros [Hv|Hv].
    + apply Hseen in Hv as (j & Hj & Hw). exists j. split; [lia | done].
    + apply (next_level_spec k) in Hv as [Hw _]; [|done].
      exists (S k). split; [lia | done].
  - intros (j & Hj & Hw).
    destruct (decide (v ∈ seen)) as [|Hnew]; [by left|]. right.
    apply (next_level_spec k); [done|].
    assert (∀ k', walk g s v k' → (S k ≤ k')%nat) as Hmin.
    { intros k' Hk'. destruct (decide (k' ≤ k)%nat) as [Hle|]; [|lia].
      destruct Hnew. apply Hseen. eauto. }
    pose proof (Hmin _ Hw). replace (S k) with j by lia.
    split; [done|]. intros k' Hk'. apply Hmin in Hk'. lia.
Qed.

Lemma level_inv_seen_nodes (k : nat) (seen thislevel : gset Z) :
  level_inv g s k seen thislevel → (size seen ≤ size (_adj g))%nat.
Proof.
  intros [Hseen _]. rewrite <- (size_dom (D := gset Z)).
  apply subseteq_size. intros v (j & _ & Hw)%Hseen.
  apply elem_of_dom, (wf_dom g Hwf). by eapply walk_node_r.
Qed.

(** Once a level is empty, everything reachable has been seen. *)
Lemma level_inv_closed (k : nat) (seen : gset Z) (v : Z) (j : nat) :
  level_inv g s k seen ∅ → walk g s v j → v ∈ seen.
Proof.
  intros Hinv. pose proof Hinv as [Hseen Hthis].
  induction 1 as [Hs|u w j Hw IH He].
  - apply Hseen. exists 0%nat. split; [lia | by constructor].
  - apply Hseen in IH as (i & Hi & Hwi).
    apply level_inv_next in Hinv as [Hseen' _].
    assert (w ∈ seen ∪ next_level (_adj g) seen ∅) as Hin.
    { apply Hseen'. exists (S i). split; [lia | by eapply walk_step]. }
    apply elem_of_union in Hin as [|Hin]; [done|].
    unfold next_level in Hin.
    apply elem_of_difference in Hin as [Hin _].
    apply elem_of_set_bind in Hin as (x & Hx & _).
    by apply not_elem_of_empty in Hx.
Qed.

(** The loop, run with enough passes: level [i] of its result holds the
    nodes exactly [k + i] hops from [s], and every node that can be reached
    is either an earlier one or in one of these levels. *)
Lemma bfs_levels_spec (fuel : nat) :
  ∀ (k : nat) (seen thislevel : gset Z),
    level_inv g s k seen thislevel →
    (thislevel ≠ ∅ → (size (_adj g) < size seen + fuel)%nat) →
    let ls := bfs_levels (_adj g) fuel seen thislevel in
    (∀ i L, ls !! i = Some L → ∀ v, v ∈ L ↔ hop_distance g s v (k + i)) ∧
    (∀ v j, walk g s v j →
            (v ∈ seen ∧ v ∉ thislevel) ∨ ∃ i L, ls !! i = Some L ∧ v ∈ L).
Proof.
  assert (∀ k seen,
            level_inv g s k seen ∅ →
            (∀ i (L : gset Z), @nil (gset Z) !! i = Some L →
                    ∀ v, v ∈ L ↔ hop_distance g s v (k + i)) ∧
            (∀ v j, walk g s v j →
                    (v ∈ seen ∧ v ∉ (∅ : gset Z)) ∨
                    ∃ i (L : gset Z), @nil (gset Z) !! i = Some L ∧ v ∈ L))
    as Hstop.
  { intros k seen Hinv. split; [intros i L Hi; by rewrite lookup_nil in Hi|].
    intros v j Hw. left. split; [by eapply level_inv_closed|].
    apply not_elem_of_empty. }
  induction fuel as [|fuel IH]; intros k seen thislevel Hinv Hfuel; simpl.
  - assert (thislevel = ∅) as ->; [|by apply Hstop].
    destruct (decide (thislevel = ∅)) as [|Hne]; [done|].
    pose proof (level_inv_seen_nodes _ _ _ Hinv). specialize (Hfuel Hne). lia.
  - destruct (decide (thislevel = ∅)) as [->|Hne]; [by apply Hstop|].
    set (nextlevel := next_level (_adj g) seen thislevel).
    destruct (IH (S k) (seen ∪ nextlevel) nextlevel) as [Hlev Hall].
    { by apply level_inv_next. }
    { intros Hnext. specialize (Hfuel Hne).
      rewrite size_union by (unfold nextlevel, next_level; set_solver).
      assert (size nextlevel ≠ 0%nat); [|lia].
      by apply size_non_empty_iff; intros ?%leibniz_equiv. }
    destruct Hinv as [Hseen Hthis]. split.
    + intros [|i] L Hi v; simpl in Hi.
      * injection Hi as <-. by rewrite Nat.add_0_r.
      * replace (k + S i)%nat with (S k + i)%nat by lia. by eapply Hlev.
    + intros v j Hw. destruct (Hall v j Hw) as [[Hin Hnn]|(i & L & Hi & Hv)].
      * assert (v ∈ seen) as Hv by set_solver.
        destruct (decide (v ∈ thislevel)) as [Hv'|Hv']; [|by left].
        right. by exists 0%nat, thislevel.
      * right. by exists (S i), L.
Qed.

Lemma level_inv_init : s ∈ nodes g → level_inv g s 0 {[s]} {[s]}.
Proof.
  intros Hs. split; intros v; rewrite elem_of_singleton; split.
  - intros ->. exists 0%nat. split; [lia | by constructor].
  - intros (j & Hj & Hw). replace j with 0%nat in Hw by lia.
    by apply walk_0_inv in Hw.
  - intros ->. split; [by constructor | lia].
  - intros [Hw _]. by apply walk_0_inv in Hw.
Qed.

(** The levels found from [s] are the classes of equal hop distance, and
    they hold every node that can be reached. *)
Lemma levels_from_spec :
  s ∈ nodes g →
  (∀ i L, levels_from g s !! i = Some L →
          ∀ v, v ∈ L ↔ hop_distance g s v i) ∧
  (∀ v j, walk g s v j → ∃ i L, levels_from g s !! i = Some L ∧ v ∈ L).
Proof.
  intros Hs. unfold levels_from.
  destruct (bfs_levels_spec (S (size (_adj g))) 0 {[s]} {[s]})
    as [Hlev Hall].
  { by apply level_inv_init. }
  { intros _. rewrite size_singleton. lia. }
  split; [exact Hlev|].
  intros v j Hw. destruct (Hall v j Hw) as [[? ?]|?]; done.
Qed.

Lemma walk_hop_distance (v : Z) (j : nat) :
  walk g s v j → ∃ k, hop_distance g s v k.
Proof.
  intros Hw. pose proof (walk_node_l _ _ _ Hw) as Hs.
  destruct (levels_from_spec Hs) as [Hlev Hall].
  destruct (Hall v j Hw) as (i & L & Hi & Hv).
  exists i. by apply (Hlev i L).
Qed.

Lemma elem_of_plain_bfs (v : Z) :
  s ∈ nodes g → v ∈ _plain_bfs g s ↔ ∃ k, walk g s v k.
Proof.
  intros Hs. destruct (levels_from_spec Hs) as [Hlev Hall].
  unfold _plain_bfs. rewrite elem_of_union_list. split.
  - intros (L & [i Hi]%list_elem_of_lookup & Hv).
    exists i. by apply (Hlev i L Hi v).
  - intros [k Hw]. destruct (Hall v k Hw) as (i & L & Hi & Hv).
    exists L. split; [|done]. apply list_elem_of_lookup. by exists i.
Qed.

Lemma levels_to_dict_lookup (ls : list (gset Z)) (k : nat) (v : Z) (j : nat) :
  levels_to_dict k ls !! v = Some j ↔
  ∃ i L, ls !! i = Some L ∧ v ∈ L ∧ j = (k + i)%nat ∧
         ∀ i' L', (i' < i)%nat → ls !! i' = Some L' → v ∉ L'.
Proof.
  revert k. induction ls as [|L0 ls IH]; intros k; simpl.
  - rewrite lookup_empty. split; [done|].
    intros (i & L & Hi & _). by rewrite lookup_nil in Hi.
  - rewrite lookup_union_Some_raw, lookup_gset_to_gmap_Some,
      lookup_gset_to_gmap_None, IH. split.
    + intros [[Hv <-]|[Hv (i & L & Hi & HvL & -> & Hfirst)]].
      * exists 0%nat, L0. split_and!; [done | done | lia | intros; lia].
      * exists (S i), L. split_and!; [done | done | lia |].
        intros [|i'] L' Hlt Hi'; simpl in Hi'.
        -- by injection Hi' as <-.
        -- apply (Hfirst i'); [lia | done].
    + intros ([|i] & L & Hi & HvL & -> & Hfirst); simpl in Hi.
      * injection Hi as <-. left. split; [done | lia].
      * right. split; [apply (Hfirst 0%nat L0); [lia | done]|].
        exists i, L. split_and!; [done | done | lia |].
        intros i' L' Hlt Hi'. apply (Hfirst (S i') L'); [lia | done].
Qed.

(** [shortest_path_length] maps every node that can be reached from [s] to
    its hop distance from [s], and no other node. *)
Lemma shortest_path_length_spec (v : Z) (k : nat) :
  s ∈ nodes g →
  shortest_path_length g s !! v = Some k ↔ hop_distance g s v k.
Proof.
  intros Hs. destruct (levels_from_spec Hs) as [Hlev Hall].
  unfold shortest_path_length. rewrite levels_to_dict_lookup. split.
  - intros (i & L & Hi & Hv & -> & _). by apply (Hlev i L).
  - intros Hk. pose proof Hk as [Hw _].
    destruct (Hall v k Hw) as (i & L & Hi & Hv).
    assert (i = k) as ->.
    { eapply hop_distance_unique; [|exact Hk]. by apply (Hlev i L). }
    exists k, L. split_and!; [done..|].
    intros i' L' Hlt Hi' Hv'. apply (Hlev i' L' Hi') in Hv'.
    pose proof (hop_distance_unique _ _ _ _ Hv' Hk). lia.
Qed.

End from_source.

Lemma plain_bfs_all_iff (s : Z) :
  s ∈ nodes g →
  size (_plain_bfs g s) = length (nodes g) ↔
  ∀ v, v ∈ nodes g → ∃ k, walk g s v k.
Proof.
  intros Hs.
  assert (_plain_bfs g s ⊆ list_to_set (nodes g)) as Hsub.
  { intros v [k Hw]%elem_of_plain_bfs; [|done].
    apply elem_of_list_to_set. by eapply walk_node_r. }
  assert (size (list_to_set (nodes g) : gset Z) = length (nodes g)) as Hsize.
  { apply size_list_to_set, (wf_nodup g Hwf). }
  split.
  - intros Heq v Hv.
    assert (_plain_bfs g s = list_to_set (nodes g)) as Hall.
    { apply set_subseteq_size_eq; [done | lia]. }
    apply elem_of_plain_bfs; [done|]. rewrite Hall.
    by apply elem_of_list_to_set.
  - intros Hall. rewrite <- Hsize. f_equal. apply set_eq. intros v.
    split; [apply Hsub|]. intros Hv%elem_of_list_to_set.
    apply elem_of_plain_bfs; auto.
Qed.

Lemma connected_from (s : Z) :
  s ∈ nodes g →
  connected g ↔ ∀ v, v ∈ nodes g → ∃ k, walk g s v k.
Proof.
  intros Hs. split.
  - intros [_ Hall] v Hv. by apply Hall.
  - intros Hall. split; [by intros Hnil; rewrite Hnil in Hs; inversion Hs|].
    intros u v Hu Hv.
    destruct (Hall u Hu) as [j Hj]. destruct (Hall v Hv) as [k Hk].
    exists (j + k)%nat. eapply walk_app; [by apply walk_sym | done].
Qed.

(** [nx.is_connected] decides [connected] on a graph with a node. *)
Lemma is_connected_spec :
  nodes g ≠ [] → ∃ b, is_connected g = Ok b ∧ (b = true ↔ connected g).
Proof.
  intros Hne. unfold is_connected.
  destruct (nodes g) as [|s l] eqn:Hn; [done|].
  eexists. split; [done|].
  assert (s ∈ nodes g) as Hs by (rewrite Hn; left).
  rewrite bool_decide_eq_true, <- Hn, plain_bfs_all_iff by done.
  by rewrite <- connected_from.
Qed.

Lemma foldl_max_spec (l : list Z) (x : Z) :
  (foldl Z.max x l = x ∨ foldl Z.max x l ∈ l) ∧
  x ≤ foldl Z.max x l ∧
  ∀ y, y ∈ l → y ≤ foldl Z.max x l.
Proof.
  revert x. induction l as [|a l IH]; intros x; simpl.
  - split_and!; [by left | lia | by intros y ?%elem_of_nil].
  - destruct (IH (Z.max x a)) as (Hin & Hle & Hall). split_and!.
    + destruct Hin as [Heq|Hin]; [|by right; right].
      rewrite Heq. destruct (Z.max_spec x a) as [[_ ->]|[_ ->]];
        [right; left | by left].
    + lia.
    + intros y [->|Hy]%elem_of_cons; [lia | by apply Hall].
Qed.

Lemma py_max_spec (l : list Z) :
  l ≠ [] → ∃ m, py_max l = Ok m ∧ m ∈ l ∧ ∀ y, y ∈ l → y ≤ m.
Proof.
  destruct l as [|x l]; [done|]. intros _. simpl. eexists. split; [done|].
  destruct (foldl_max_spec l x) as ([Heq|Hin] & Hle & Hall).
  - split; [rewrite Heq; left|].
    intros y [->|Hy]%elem_of_cons; [done | by apply Hall].
  - split; [by right|].
    intros y [->|Hy]%elem_of_cons; [done | by apply Hall].
Qed.

Lemma mapM_Ok {A B} (f : A → result B) (h : A → B) (l : list A) :
  (∀ x, x ∈ l → f x = Ok (h x)) → mapM f l = Ok (h <$> l).
Proof.
  induction l as [|x l IH]; intros H; [done|].
  cbn [mapM]. rewrite (H x) by left. cbn [mbind result_bind].
  rewrite IH; [done|]. intros y Hy. apply H. by right.
Qed.

(** The eccentricity of a node of a connected graph: the hop distance to a
    farthest node. *)
Lemma eccentricity_spec (u : Z) :
  connected g → u ∈ nodes g →
  ∃ e : nat, eccentricity g u = Ok (Z.of_nat e) ∧
             (∃ v, hop_distance g u v e) ∧
             (∀ v k, hop_distance g u v k → (k ≤ e)%nat).
Proof.
  intros Hconn Hu. unfold eccentricity.
  set (dist := shortest_path_length g u).
  assert (∀ v k, dist !! v = Some k ↔ hop_distance g u v k) as Hdist.
  { intros v k. by apply shortest_path_length_spec. }
  assert (dom dist = list_to_set (nodes g)) as Hdom.
  { apply set_eq. intros v. rewrite elem_of_dom, elem_of_list_to_set. split.
    - intros [k [Hw _]%Hdist]. by eapply walk_node_r.
    - intros Hv. destruct Hconn as [_ Hall].
      destruct (Hall u v Hu Hv) as [j Hj].
      destruct (walk_hop_distance _ _ _ Hj) as [k Hk].
      exists k. by apply Hdist. }
  rewrite decide_True.
  2:{ rewrite <- (size_dom (D := gset Z)), Hdom.
      apply size_list_to_set, (wf_nodup g Hwf). }
  assert (∀ z, z ∈ Z.of_nat <$> (map_to_list dist).*2 ↔
               ∃ v k, z = Z.of_nat k ∧ hop_distance g u v k) as Hvals.
  { intros z. rewrite list_elem_of_fmap. split.
    - intros (k & -> & ([v k'] & -> & Hvk)%list_elem_of_fmap).
      apply elem_of_map_to_list in Hvk. exists v, k'. simpl.
      split; [done | by apply Hdist].
    - intros (v & k & -> & Hk). exists k. split; [done|].
      apply list_elem_of_fmap. exists (v, k). split; [done|].
      by apply elem_of_map_to_list, Hdist. }
  destruct (py_max_spec (Z.of_nat <$> (map_to_list dist).*2))
    as (m & -> & Hin & Hmax).
  { intros Hnil.
    assert (0 ∈ Z.of_nat <$> (map_to_list dist).*2) as H0.
    { apply Hvals. exists u, 0%nat. split; [done|].
      split; [by constructor | lia]. }
    rewrite Hnil in H0. by apply elem_of_nil in H0. }
  apply Hvals in Hin as (v & e & -> & He). exists e. split_and!; [done | eauto |].
  intros w k Hk. assert (Z.of_nat k ≤ Z.of_nat e); [|lia].
  apply Hmax, Hvals. eauto.
Qed.

(** [nx.diameter] of a connected graph is the greatest hop distance. *)
Lemma nx_diameter_spec :
  connected g →
  ∃ d : nat, nx_diameter g = Ok (Z.of_nat d) ∧ greatest_hop_distance g d.
Proof.
  intros Hconn. unfold nx_diameter.
  set (h := λ u, match eccentricity g u with Ok e => e | Raise _ => 0 end).
  assert (∀ u, u ∈ nodes g →
               ∃ e : nat, eccentricity g u = Ok (h u) ∧ h u = Z.of_nat e ∧
                          (∃ v, hop_distance g u v e) ∧
                          (∀ v k, hop_distance g u v k → (k ≤ e)%nat)) as Hecc.
  { intros u Hu.
    destruct (eccentricity_spec u Hconn Hu) as (e & He & Hfar & Hmax).
    exists e. unfold h. rewrite He. done. }
  rewrite (mapM_Ok _ h).
  2:{ intros u Hu. by destruct (Hecc u Hu) as (e & -> & _). }
  cbn [mbind result_bind].
  destruct (py_max_spec (h <$> nodes g)) as (m & -> & Hin & Hmax).
  { destruct Hconn as [Hne _]. by destruct (nodes g). }
  apply list_elem_of_fmap in Hin as (u & -> & Hu).
  destruct (Hecc u Hu) as (d & _ & Hd & (v & Hfar) & _).
  exists d. split; [by rewrite Hd|]. split; [by exists u, v|].
  intros u' v' k Hk. pose proof Hk as [Hw _].
  pose proof (walk_node_l _ _ _ Hw) as Hu'.
  destruct (Hecc u' Hu') as (e' & _ & He' & _ & Hmax').
  specialize (Hmax' _ _ Hk).
  assert (h u' ≤ h u) by (apply Hmax; by apply list_elem_of_fmap_2).
  lia.
Qed.

End bfs.

(** * Statistics of a graph with nodes *)

Lemma statistics_diameter_wf (g : Graph) :
  graph_wf g → nodes g ≠ [] →
  ∃ st, get_network_statistics g = Ok st ∧
        ((connected g ∧
          ∃ d : nat, diameter st = PyInt (Z.of_nat d) ∧
                     greatest_hop_distance g d) ∨
         (¬ connected g ∧ diameter st = PyStr not_connected_text)).
Proof.
  intros Hwf Hne. unfold get_network_statistics.
  rewrite (mapM_Ok _ (degree g)).
  2:{ intros n Hn. by apply connections_degree, (wf_dom g Hwf). }
  cbn [mbind result_bind].
  destruct (py_max_spec (degree g <$> nodes g)) as (m & -> & _).
  { by destruct (nodes g). }
  cbn [mbind result_bind].
  destruct (is_connected_spec g Hwf Hne) as (b & -> & Hb).
  cbn [mbind result_bind]. destruct b.
  - assert (connected g) as Hconn by by apply Hb.
    destruct (nx_diameter_spec g Hwf Hconn) as (d & -> & Hd).
    cbn [mbind result_bind]. eexists. split; [done|]. left.
    split; [done|]. by exists d.
  - cbn [mbind result_bind]. eexists. split; [done|]. right.
    split; [|done]. intros Hconn%Hb. done.
Qed.

(** C6: on the graph built from a non-empty airport table the statistics
    are returned; their diameter is the number that is the greatest
    shortest-path hop distance over all pairs of nodes when the graph is
    connected, and a text, which is no number, when it is not. *)
Theorem statistics_diameter (airports_df : list Airport)
    (routes_df : list Route) :
  airports_df ≠ [] →
  let g := _build_graph airports_df routes_df in
  ∃ st, get_network_statistics g = Ok st ∧
        ((connected g ∧
          ∃ d : nat, diameter st = PyInt (Z.of_nat d) ∧
                     greatest_hop_distance g d) ∨
         (¬ connected g ∧ diameter st = PyStr not_connected_text ∧
          ∀ z, diameter st ≠ PyInt z)).
Proof.
  intros Hne g.
  destruct (statistics_diameter_wf g) as (st & Hst & Hcases).
  - apply graph_wf_build.
  - destruct airports_df as [|a l]; [done|]. intros Hnil.
    assert (airport_id a ∈ nodes g) as Hin.
    { apply elem_of_nodes_build. unfold airport_ids. rewrite fmap_cons. left. }
    rewrite Hnil in Hin. by apply elem_of_nil in Hin.
  - exists st. split; [done|].
    destruct Hcases as [?|[Hnc Hd]]; [by left|]. right.
    split_and!; [done..|]. intros z. by rewrite Hd.
Qed.

Lemma statistics_diameter_witness :
  let g := _build_graph split_airports split_routes in
  ∃ st, get_network_statistics g = Ok st ∧
        ((connected g ∧
          ∃ d : nat, diameter st = PyInt (Z.of_nat d) ∧
                     greatest_hop_distance g d) ∨
         (¬ connected g ∧ diameter st = PyStr not_connected_text ∧
          ∀ z, diameter st ≠ PyInt z)).
Proof.
  apply (statistics_diameter split_airports split_routes). discriminate.
Defined.

(** The statistics of the two example tables, evaluated. *)
Example statistics_example :
  get_network_statistics (_build_graph example_airports example_routes)
  = Ok (mkStats 3 2 (np_quot (4 # 3)) 2 1 (PyInt 2)).
Proof. vm_compute. reflexivity. Qed.

Example statistics_split :
  get_network_statistics (_build_graph split_airports split_routes)
  = Ok (mkStats 4 2 (np_quot (4 # 4)) 1 2 (PyStr not_connected_text)).
Proof. vm_compute. reflexivity. Qed.

(** * GeoMath *)

Section GeoMath_facts.
Local Open Scope R_scope.

Lemma sin_half_sqr (x : R) : sin (x / 2) ^ 2 = (1 - cos x) / 2.
Proof.
  replace (cos x) with (cos (2 * (x / 2))) by (f_equal; lra).
  rewrite cos_2a_sin. lra.
Qed.

(** The quantity under the square roots lies between 0 and 1, so neither
    [sqrt] nor [asin] leaves its domain. *)
Lemma hav_a_bounds (lat1 lon1 lat2 lon2 : R) :
  0 <= hav_a lat1 lon1 lat2 lon2 <= 1.
Proof.
  unfold hav_a. rewrite !sin_half_sqr.
  pose proof (cos_minus lat2 lat1) as Hm.
  pose proof (cos_plus lat2 lat1) as Hp.
  pose proof (COS_bound (lat2 - lat1)) as [Hm1 Hm2].
  pose proof (COS_bound (lat2 + lat1)) as [Hp1 Hp2].
  pose proof (COS_bound (lon2 - lon1)) as [Ht1 Ht2].
  set (p := cos (lat2 - lat1)) in *. set (q := cos (lat2 + lat1)) in *.
  set (t := (1 - cos (lon2 - lon1)) / 2).
  assert (0 <= t <= 1) as [Ht0 Ht] by (unfold t; lra).
  assert (cos lat1 * cos lat2 = (p + q) / 2) as -> by lra.
  split; nra.
Qed.

Lemma py_sqrt_ok (x : R) : 0 <= x → py_sqrt x = Ok (sqrt x).
Proof. intros H. unfold py_sqrt. destruct (Rlt_dec x 0); [lra | done]. Qed.

Lemma py_asin_ok (x : R) : -1 <= x <= 1 → py_asin x = Ok (asin x).
Proof.
  intros H. unfold py_asin.
  destruct (Rlt_dec x (-1)); [lra|]. destruct (Rlt_dec 1 x); [lra | done].
Qed.

Lemma sqrt_unit (x : R) : 0 <= x <= 1 → -1 <= sqrt x <= 1.
Proof.
  intros [H0 H1]. pose proof (sqrt_pos x).
  pose proof (sqrt_le_1_alt x 1 H1) as Hle. rewrite sqrt_1 in Hle. lra.
Qed.

(** The value [haversine_distance] returns; it never raises. *)
Lemma haversine_distance_value (lat1 lon1 lat2 lon2 : R) :
  haversine_distance lat1 lon1 lat2 lon2 =
  Ok (2 * asin (sqrt (hav_a (radians lat1) (radians lon1)
                            (radians lat2) (radians lon2))) * 6371).
Proof.
  unfold haversine_distance.
  pose proof (hav_a_bounds (radians lat1) (radians lon1)
                           (radians lat2) (radians lon2)) as Ha.
  rewrite py_sqrt_ok by lra. cbn [mbind result_bind].
  rewrite py_asin_ok by by apply sqrt_unit. done.
Qed.

(** C2: [haversine_distance] returns the value of the reference formula. *)
Theorem haversine_distance_is_reference (lat1 lon1 lat2 lon2 : R) :
  haversine_distance lat1 lon1 lat2 lon2 =
  Ok (haversine_reference lat1 lon1 lat2 lon2).
Proof.
  rewrite haversine_distance_value. unfold haversine_reference.
  cbv zeta. do 4 f_equal. unfold hav_a, radians.
  rewrite !Rsqr_pow2.
  replace (lat1 * PI / 180) with (lat1 * (PI / 180)) by (unfold Rdiv; ring).
  replace (lat2 * PI / 180) with (lat2 * (PI / 180)) by (unfold Rdiv; ring).
  replace (lon1 * PI / 180) with (lon1 * (PI / 180)) by (unfold Rdiv; ring).
  replace (lon2 * PI / 180) with (lon2 * (PI / 180)) by (unfold Rdiv; ring).
  done.
Qed.

Lemma hav_a_sym (lat1 lon1 lat2 lon2 : R) :
  hav_a lat1 lon1 lat2 lon2 = hav_a lat2 lon2 lat1 lon1.
Proof.
  unfold hav_a.
  replace ((lat1 - lat2) / 2) with (- ((lat2 - lat1) / 2)) by lra.
  replace ((lon1 - lon2) / 2) with (- ((lon2 - lon1) / 2)) by lra.
  rewrite !sin_neg. ring.
Qed.

Lemma hav_a_same (lat lon : R) : hav_a lat lon lat lon = 0.
Proof.
  unfold hav_a. replace ((lat - lat) / 2) with 0 by lra.
  replace ((lon - lon) / 2) with 0 by lra. rewrite sin_0. ring.
Qed.

(** C8: the distance is symmetric, and zero from a point to itself. *)
Theorem haversine_distance_symmetric_zero (lat1 lon1 lat2 lon2 : R) :
  haversine_distance lat1 lon1 lat2 lon2
  = haversine_distance lat2 lon2 lat1 lon1 ∧
  haversine_distance lat1 lon1 lat1 lon1 = Ok 0.
Proof.
  rewrite !haversine_distance_value. split.
  - by rewrite hav_a_sym.
  - rewrite hav_a_same, sqrt_0, asin_0. f_equal. ring.
Qed.

Lemma slerp_weight_ok (w c : R) : ∃ A, slerp_weight w c = Ok A.
Proof.
  unfold slerp_weight, float_div. destruct (Req_dec_T (sin c) 0); eauto.
Qed.

(** With a non-zero [num_points] the body of the loop does not raise. *)
Lemma path_point_ok (lat1 lon1 lat2 lon2 c : R) (num_points i : Z) :
  num_points ≠ 0%Z →
  ∃ p, path_point lat1 lon1 lat2 lon2 c num_points i = Ok p.
Proof.
  intros Hn. unfold path_point, int_truediv.
  rewrite decide_False by done. cbn [mbind result_bind].
  destruct (slerp_weight_ok (1 - IZR i / IZR num_points) c) as [A ->].
  destruct (slerp_weight_ok (IZR i / IZR num_points) c) as [B ->].
  cbn [mbind result_bind]. rewrite py_sqrt_ok; [by eexists|].
  pose proof (pow2_ge_0 (A * cos lat1 * cos lon1 + B * cos lat2 * cos lon2)).
  pose proof (pow2_ge_0 (A * cos lat1 * sin lon1 + B * cos lat2 * sin lon2)).
  lra.
Qed.

Lemma path_loop_ok (lat1 lon1 lat2 lon2 c : R) (num_points : Z)
    (range : list Z) (lats lons : list R) :
  num_points ≠ 0%Z →
  ∃ lats' lons',
    path_loop lat1 lon1 lat2 lon2 c num_points range lats lons
    = Ok (lats', lons') ∧
    length lats' = (length lats + length range)%nat ∧
    length lons' = (length lons + length range)%nat.
Proof.
  intros Hn. revert lats lons.
  induction range as [|i range IH]; intros lats lons; cbn [path_loop].
  - exists lats, lons. by rewrite !Nat.add_0_r.
  - destruct (path_point_ok lat1 lon1 lat2 lon2 c num_points i Hn) as [p ->].
    cbn [mbind result_bind].
    destruct (IH (lats ++ [p.1]) (lons ++ [p.2])) as (la & lo & -> & H1 & H2).
    exists la, lo. rewrite !length_app in *. simpl in *.
    split_and!; [done | lia | lia].
Qed.






End GeoMath_facts.

(** * Further properties of graph construction *)

Lemma dict_lookup_dict_set {V} (x k : Z) (v : V) (d : list (Z * V)) :
  dict_lookup x (dict_set k v d) =
  if decide (k = x) then Some v else dict_lookup x d.
Proof.
  induction d as [|[k' v'] d IH]; simpl.
  - done.
  - destruct (decide (k' = k)) as [->|Hne]; simpl.
    + by destruct (decide (k = x)).
    + rewrite IH. destruct (decide (k' = x)) as [->|]; [|done].
      by rewrite decide_False.
Qed.

Lemma _node_add_airport (g : Graph) (a : Airport) :
  _node (add_airport g a)
  = dict_set (airport_id a) (Some (attr_of a)) (_node g).
Proof. unfold add_airport, add_node. by destruct (has_node g _). Qed.

Lemma _node_add_routes (l : list Route) (g : Graph) :
  _node (foldl add_route g l) = _node g.
Proof.
  revert g. induction l as [|r l IH]; intros g; simpl; [done|].
  rewrite IH, add_route_unfold. by destruct (decide _).
Qed.

Lemma last_row_cons (a : Airport) (l : list Airport) (n : Z) :
  last_row (a :: l) n =
  if decide (airport_id a = n)
  then Some (default a (last_row l n))
  else last_row l n.
Proof.
  unfold last_row. rewrite filter_cons.
  destruct (decide (airport_id a = n)) as [Ha|Ha]; [|done].
  destruct (filter _ l) as [|b k] eqn:Hf; [done|].
  rewrite last_cons. by destruct (last (b :: k)).
Qed.

Lemma node_attr_add_airports (l : list Airport) (g : Graph) (n : Z) :
  node_attr (foldl add_airport g l) n =
  match last_row l n with
  | Some a => Some (Some (attr_of a))
  | None => node_attr g n
  end.
Proof.
  revert g. induction l as [|a l IH]; intros g; [done|].
  cbn [foldl]. rewrite IH, last_row_cons.
  unfold node_attr. rewrite _node_add_airport, dict_lookup_dict_set.
  destruct (decide (airport_id a = n)); by destruct (last_row l n).
Qed.

Lemma nodes_add_airports_first (l : list Airport) (g : Graph) :
  nodes (foldl add_airport g l) =
  nodes g ++ filter (λ y, y ∉ nodes g) (first_occurrences (airport_ids l)).
Proof.
  unfold airport_ids. revert g. induction l as [|a l IH]; intros g; csimpl.
  - by rewrite app_nil_r.
  - rewrite IH.
    pose proof (nodes_add_node (airport_id a) (attr_of a) g) as Hk.
    change (add_node (airport_id a) (attr_of a) g) with (add_airport g a)
      in Hk.
    rewrite Hk, filter_cons. clear Hk IH.
    set (F := first_occurrences (airport_id <$> l)).
    destruct (decide (airport_id a ∈ nodes g)) as [Hin|Hnin].
    + rewrite decide_False by tauto. f_equal. symmetry.
      apply list_filter_filter_l. intros x Hx ->. done.
    + rewrite decide_True by done. rewrite <- app_assoc. f_equal.
      cbn [app]. f_equal. rewrite list_filter_filter.
      apply list_filter_iff. intros x.
      rewrite elem_of_app, list_elem_of_singleton. tauto.
Qed.

(** The nodes stand in the order in which their ids first occur in the
    airport table, and a node keeps the attributes of the last row with its
    id; an id that is in no row has no attributes. *)
Theorem build_graph_nodes_and_attributes (airports_df : list Airport)
    (routes_df : list Route) :
  let g := _build_graph airports_df routes_df in
  nodes g = first_occurrences (airport_ids airports_df) ∧
  ∀ n, node_attr g n
       = (λ a, Some (attr_of a)) <$> last_row airports_df n.
Proof.
  intros g. unfold g, _build_graph. split.
  - rewrite nodes_add_routes, nodes_add_airports_first.
    unfold nodes at 1 2. simpl.
    induction (first_occurrences (airport_ids airports_df)) as [|x F IH];
      [done|].
    rewrite filter_cons, decide_True by apply not_elem_of_nil. by f_equal.
  - intros n. unfold node_attr. rewrite _node_add_routes.
    fold (node_attr (foldl add_airport empty_graph airports_df) n).
    rewrite node_attr_add_airports. by destruct (last_row airports_df n).
Qed.

Lemma adj_build_ext (g1 g2 : Graph) :
  graph_wf g1 → graph_wf g2 →
  (∀ n, n ∈ nodes g1 ↔ n ∈ nodes g2) →
  (∀ u v, has_edge g1 u v ↔ has_edge g2 u v) →
  _adj g1 = _adj g2.
Proof.
  intros Hwf1 Hwf2 Hn He. apply map_eq. intros n.
  pose proof (wf_dom g1 Hwf1 n) as H1. pose proof (wf_dom g2 Hwf2 n) as H2.
  specialize (Hn n).
  destruct (_adj g1 !! n) as [s1|] eqn:E1, (_adj g2 !! n) as [s2|] eqn:E2.
  - f_equal. apply set_eq. intros v. split; intros Hv.
    + destruct (proj1 (He n v)) as (s & Hs & Hin); [by exists s1|]. congruence.
    + destruct (proj2 (He n v)) as (s & Hs & Hin); [by exists s2|]. congruence.
  - assert (is_Some (None : option (gset Z))) as [? ?]; [|done].
    apply H2, Hn, H1. by eexists.
  - assert (is_Some (None : option (gset Z))) as [? ?]; [|done].
    apply H1, Hn, H2. by eexists.
  - done.
Qed.

Lemma resolvable_joins (airports_df : list Airport) (r r' : Route) (u v : Z) :
  joins r u v → joins r' u v → resolvable airports_df r →
  resolvable airports_df r'.
Proof.
  unfold joins, resolvable.
  intros [[-> ->]|[-> ->]] [[Hs Hd]|[Hs Hd]] [H1 H2];
    rewrite <- ?Hs, <- ?Hd; done.
Qed.

(** The graph depends on the routes only through the pairs of ids they
    join: the order of the rows, repeated rows, the direction of a route and
    its airline make no difference. *)
Theorem build_graph_routes_as_pairs (airports_df : list Airport)
    (routes1 routes2 : list Route) :
  (∀ u v, joined_by routes1 u v ↔ joined_by routes2 u v) →
  _build_graph airports_df routes1 = _build_graph airports_df routes2.
Proof.
  intros Hsame.
  set (g1 := _build_graph airports_df routes1).
  set (g2 := _build_graph airports_df routes2).
  assert (_node g1 = _node g2) as Hnode.
  { unfold g1, g2, _build_graph. by rewrite !_node_add_routes. }
  assert (_adj g1 = _adj g2) as Hadj.
  { apply adj_build_ext; try apply graph_wf_build.
    - intros n. unfold g1, g2. by rewrite !elem_of_nodes_build.
    - intros u v. unfold g1, g2. rewrite !has_edge_build. split.
      + intros (r & Hr & Hres & Hj).
        destruct (proj1 (Hsame u v)) as (r' & Hr' & Hj'); [by exists r|].
        exists r'. split; [done|]. split; [|done].
        by apply (resolvable_joins airports_df r r' u v).
      + intros (r & Hr & Hres & Hj).
        destruct (proj2 (Hsame u v)) as (r' & Hr' & Hj'); [by exists r|].
        exists r'. split; [done|]. split; [|done].
        by apply (resolvable_joins airports_df r r' u v). }
  destruct g1, g2. simpl in *. congruence.
Qed.

Lemma build_graph_routes_as_pairs_witness :
  _build_graph example_airports
    [mkRoute 1 2 "x"; mkRoute 2 3 "y"]
  = _build_graph example_airports
    [mkRoute 3 2 "q"; mkRoute 2 1 "z"; mkRoute 1 2 "w"; mkRoute 3 2 "q"].
Proof.
  apply (build_graph_routes_as_pairs example_airports).
  intros u v. unfold joined_by, joins. split.
  - intros (r & Hr & Hj).
    apply elem_of_cons in Hr as [->|Hr];
      [|apply elem_of_cons in Hr as [->|Hr]; [|by apply elem_of_nil in Hr]];
      simpl in Hj.
    + exists (mkRoute 1 2 "w"). split; [set_solver | simpl; tauto].
    + exists (mkRoute 3 2 "q"). split; [set_solver | simpl; tauto].
  - intros (r & Hr & Hj).
    repeat (apply elem_of_cons in Hr as [->|Hr]); simpl in Hj;
      try (by apply elem_of_nil in Hr).
    + exists (mkRoute 2 3 "y"). split; [set_solver | simpl; tauto].
    + exists (mkRoute 1 2 "x"). split; [set_solver | simpl; tauto].
    + exists (mkRoute 1 2 "x"). split; [set_solver | simpl; tauto].
    + exists (mkRoute 2 3 "y"). split; [set_solver | simpl; tauto].
Defined.



(** * Counting edges *)

Lemma edge_ends_sum_perm (l l' : list (Z * gset Z)) :
  l ≡ₚ l' →
  foldr (λ (item : Z * gset Z) acc, edge_ends item.1 item.2 + acc) 0 l
  = foldr (λ (item : Z * gset Z) acc, edge_ends item.1 item.2 + acc) 0 l'.
Proof. induction 1; simpl; lia. Qed.

Lemma edge_ends_sum_insert (adj : gmap Z (gset Z)) (u : Z) (s' : gset Z) :
  edge_ends_sum (<[u := s']> adj) =
  edge_ends_sum adj
  - match adj !! u with Some s => edge_ends u s | None => 0 end
  + edge_ends u s'.
Proof.
  unfold edge_ends_sum. destruct (adj !! u) as [s|] eqn:Hu.
  - rewrite <- insert_delete_eq.
    rewrite (edge_ends_sum_perm _ _
               (map_to_list_insert (delete u adj) u s' (lookup_delete_eq _ _))).
    rewrite <- (edge_ends_sum_perm _ _ (map_to_list_delete adj u s Hu)).
    simpl. lia.
  - rewrite (edge_ends_sum_perm _ _ (map_to_list_insert adj u s' Hu)).
    simpl. lia.
Qed.

Lemma edge_ends_grow (n v : Z) (s : gset Z) :
  v ∉ s →
  edge_ends n (s ∪ {[v]}) = edge_ends n s + (if decide (n = v) then 2 else 1).
Proof.
  intros Hv. unfold edge_ends.
  rewrite size_union by set_solver. rewrite size_singleton.
  destruct (decide (n = v)) as [->|Hne].
  - rewrite decide_True by set_solver. rewrite decide_False by done. lia.
  - destruct (decide (n ∈ s)).
    + rewrite decide_True by set_solver. lia.
    + rewrite decide_False by set_solver. lia.
Qed.

(** What [_adj[u][v] = {}] does to the sum of edge ends. *)
Lemma edge_ends_sum_adj_add (adj : gmap Z (gset Z)) (u v : Z) (s : gset Z) :
  adj !! u = Some s →
  edge_ends_sum (adj_add u v adj) =
  edge_ends_sum adj +
  (if decide (v ∈ s) then 0 else if decide (u = v) then 2 else 1).
Proof.
  intros Hu. unfold adj_add. rewrite edge_ends_sum_insert, Hu. simpl.
  destruct (decide (v ∈ s)) as [Hin|Hnin].
  - replace (s ∪ {[v]}) with s by set_solver. lia.
  - rewrite edge_ends_grow by done. lia.
Qed.

(** The invariant of construction: the sum of edge ends is twice the number
    of unordered pairs of adjacent nodes. *)
Lemma edges_counted_empty :
  ∃ E : gset (Z * Z),
    (∀ u v, (u, v) ∈ E ↔ u ≤ v ∧ has_edge empty_graph u v) ∧
    edge_ends_sum (_adj empty_graph) = 2 * Z.of_nat (size E).
Proof.
  exists ∅. split; [|done]. intros u v. split; [by intros ?%not_elem_of_empty|].
  intros [_ H]. by apply no_edge_empty_graph in H.
Qed.

Lemma has_edge_add_node (n : Z) (a : NodeAttr) (g : Graph) (u v : Z) :
  graph_wf g → has_edge (add_node n a g) u v ↔ has_edge g u v.
Proof.
  intros Hwf. unfold add_node, has_edge. destruct (has_node g n) eqn:Hn; [done|].
  simpl. assert (_adj g !! n = None) as Hnone.
  { destruct (_adj g !! n) eqn:E; [|done].
    assert (n ∈ nodes g) as Hin by (apply (wf_dom g Hwf); by eexists).
    apply has_node_spec in Hin. congruence. }
  destruct (decide (u = n)) as [->|Hne].
  - rewrite lookup_insert_eq, Hnone. split.
    + intros (s & [= <-] & Hv). by apply not_elem_of_empty in Hv.
    + by intros (s & [=] & _).
  - by rewrite lookup_insert_ne.
Qed.

Lemma edges_counted_add_node (n : Z) (a : NodeAttr) (g : Graph) :
  graph_wf g →
  (∃ E : gset (Z * Z),
     (∀ u v, (u, v) ∈ E ↔ u ≤ v ∧ has_edge g u v) ∧
     edge_ends_sum (_adj g) = 2 * Z.of_nat (size E)) →
  ∃ E : gset (Z * Z),
    (∀ u v, (u, v) ∈ E ↔ u ≤ v ∧ has_edge (add_node n a g) u v) ∧
    edge_ends_sum (_adj (add_node n a g)) = 2 * Z.of_nat (size E).
Proof.
  intros Hwf (E & HE & Hsum). exists E. split.
  - intros u v. by rewrite has_edge_add_node.
  - rewrite <- Hsum. unfold add_node. destruct (has_node g n) eqn:Hn; [done|].
    simpl. rewrite edge_ends_sum_insert.
    assert (_adj g !! n = None) as ->.
    { destruct (_adj g !! n) eqn:E'; [|done].
      assert (n ∈ nodes g) as Hin by (apply (wf_dom g Hwf); by eexists).
      apply has_node_spec in Hin. congruence. }
    unfold edge_ends. rewrite size_empty, decide_False by set_solver. lia.
Qed.

Lemma unordered_elem (u v a b : Z) :
  a ≤ b → (a, b) = unordered u v ↔ (a = u ∧ b = v) ∨ (a = v ∧ b = u).
Proof. unfold unordered. intros Hab. split; [intros [= -> ->]|intros H; f_equal]; lia. Qed.

Lemma edges_counted_add_route (g : Graph) (r : Route) :
  graph_wf g →
  (∃ E : gset (Z * Z),
     (∀ u v, (u, v) ∈ E ↔ u ≤ v ∧ has_edge g u v) ∧
     edge_ends_sum (_adj g) = 2 * Z.of_nat (size E)) →
  ∃ E : gset (Z * Z),
    (∀ u v, (u, v) ∈ E ↔ u ≤ v ∧ has_edge (add_route g r) u v) ∧
    edge_ends_sum (_adj (add_route g r)) = 2 * Z.of_nat (size E).
Proof.
  intros Hwf (E & HE & Hsum).
  pose proof (has_edge_add_route g r) as Hedge.
  rewrite add_route_unfold in *.
  destruct (decide (src_id r ∈ nodes g ∧ dst_id r ∈ nodes g)) as [[Hs Hd]|Hno];
    [|by exists E].
  set (a := src_id r) in *. set (b := dst_id r) in *.
  exists (E ∪ {[unordered a b]}). split.
  - intros u v. rewrite elem_of_union, elem_of_singleton, HE, Hedge.
    unfold joins. fold a b. split.
    + intros [[? ?]|Hp]; [tauto|].
      assert (u ≤ v) by (injection Hp; lia).
      apply unordered_elem in Hp; tauto.
    + intros [Hle [?|(_ & _ & Hj)]]; [tauto|].
      right. apply unordered_elem; tauto.
  - simpl. destruct (proj1 (wf_dom g Hwf a) Hs) as [sa Ha].
    assert (∀ v, v ∈ sa ↔ has_edge g a v) as Hsa.
    { intros v. split; [by exists sa|]. intros (s & ? & ?). congruence. }
    rewrite (edge_ends_sum_adj_add _ b a
               (if decide (a = b) then sa ∪ {[b]}
                else default ∅ (_adj g !! b))).
    2:{ unfold adj_add. destruct (decide (a = b)) as [<-|Hne].
        - by rewrite lookup_insert_eq, Ha.
        - rewrite lookup_insert_ne by done.
          destruct (proj1 (wf_dom g Hwf b) Hd) as [sb ->]. done. }
    rewrite (edge_ends_sum_adj_add _ a b sa Ha), Hsum.
    assert ((a, b) ∈ E ∨ (b, a) ∈ E ↔ b ∈ sa) as Hin.
    { rewrite !HE, Hsa. split; [intros [[_ ?]|[_ ?]]; [done|by apply (wf_sym g Hwf)]|].
      intros He. destruct (decide (a ≤ b)); [left; done|right].
      split; [lia | by apply (wf_sym g Hwf)]. }
    assert (unordered a b ∈ E ↔ b ∈ sa) as Hin'.
    { rewrite <- Hin. unfold unordered.
      destruct (decide (a ≤ b)).
      - rewrite Z.min_l, Z.max_r by lia. split; [tauto|].
        intros [?|Hba]; [done|]. apply HE in Hba as [? ?].
        apply HE. split; [done | by apply (wf_sym g Hwf)].
      - rewrite Z.min_r, Z.max_l by lia. split; [tauto|].
        intros [Hab|?]; [|done]. apply HE in Hab as [? ?]. lia. }
    destruct (decide (b ∈ sa)) as [Hb|Hb].
    + replace (E ∪ {[unordered a b]}) with E by set_solver.
      destruct (decide (a = b)) as [<-|Hne].
      * rewrite decide_True by set_solver. lia.
      * destruct (proj1 (wf_dom g Hwf b) Hd) as [sb Hsb]. rewrite Hsb. simpl.
        rewrite decide_True; [lia|].
        destruct (wf_sym g Hwf a b) as (s & Hs' & Ha'); [by apply Hsa|].
        congruence.
    + rewrite size_union by set_solver. rewrite size_singleton.
      destruct (decide (a = b)) as [<-|Hne].
      * rewrite decide_True by set_solver. lia.
      * destruct (proj1 (wf_dom g Hwf b) Hd) as [sb Hsb]. rewrite Hsb. simpl.
        rewrite decide_False; [rewrite decide_False by done; lia|].
        intros Ha'. apply Hb, Hsa, (wf_sym g Hwf). by exists sb.
Qed.

Lemma edges_counted_build (airports_df : list Airport) (routes_df : list Route) :
  ∃ E : gset (Z * Z),
    (∀ u v, (u, v) ∈ E ↔
            u ≤ v ∧ has_edge (_build_graph airports_df routes_df) u v) ∧
    edge_ends_sum (_adj (_build_graph airports_df routes_df))
    = 2 * Z.of_nat (size E).
Proof.
  unfold _build_graph.
  assert (graph_wf (foldl add_airport empty_graph airports_df) ∧
          ∃ E : gset (Z * Z),
            (∀ u v, (u, v) ∈ E ↔
               u ≤ v ∧ has_edge (foldl add_airport empty_graph airports_df) u v) ∧
            edge_ends_sum (_adj (foldl add_airport empty_graph airports_df))
            = 2 * Z.of_nat (size E)) as H.
  { generalize graph_wf_empty edges_counted_empty. generalize empty_graph.
    induction airports_df as [|a l IH]; intros g Hg HE; simpl; [done|].
    apply IH; [by apply graph_wf_add_node | by apply edges_counted_add_node]. }
  revert H. generalize (foldl add_airport empty_graph airports_df).
  induction routes_df as [|r l IH]; intros g [Hg HE]; simpl; [done|].
  apply IH. split; [by apply graph_wf_add_route | by apply edges_counted_add_route].
Qed.

Lemma elem_of_joined_pairs (airports_df : list Airport)
    (routes_df : list Route) (u v : Z) :
  (u, v) ∈ joined_pairs airports_df routes_df ↔
  u ≤ v ∧ has_edge (_build_graph airports_df routes_df) u v.
Proof.
  unfold joined_pairs.
  rewrite elem_of_list_to_set, list_elem_of_fmap, has_edge_build. split.
  - intros (r & Hp & [Hres Hr]%list_elem_of_filter).
    assert (u ≤ v) by (injection Hp; lia).
    split; [done|]. exists r. split_and!; [done..|].
    apply unordered_elem in Hp; [|done]. unfold joins. tauto.
  - intros (Hle & r & Hr & Hres & Hj). exists r. split.
    + apply unordered_elem; [done|]. unfold joins in Hj. tauto.
    + by apply list_elem_of_filter.
Qed.

Lemma size_list_to_set_length (l : list (Z * Z)) :
  (size (list_to_set l : gset (Z * Z)) ≤ length l)%nat.
Proof.
  induction l as [|x l IH]; csimpl.
  - done.
  - rewrite size_union_alt, size_singleton.
    assert (list_to_set l ∖ {[x]} ⊆ (list_to_set l : gset (Z * Z))) as Hsub
      by set_solver.
    apply subseteq_size in Hsub. lia.
Qed.

(** [total_routes] is the number of unordered pairs of airports joined by
    some route with both ends in the table: rows that repeat a pair, in
    either direction, count once, and so does a route from an airport to
    itself; it is at most the number of route rows. *)
Lemma number_of_edges_counts_pairs (airports_df : list Airport)
    (routes_df : list Route) :
  number_of_edges (_build_graph airports_df routes_df)
  = Z.of_nat (size (joined_pairs airports_df routes_df)) ∧
  number_of_edges (_build_graph airports_df routes_df)
  ≤ Z.of_nat (length routes_df).
Proof.
  assert (number_of_edges (_build_graph airports_df routes_df)
          = Z.of_nat (size (joined_pairs airports_df routes_df))) as Heq.
  { destruct (edges_counted_build airports_df routes_df) as (E & HE & Hsum).
    assert (E = joined_pairs airports_df routes_df) as <-.
    { apply set_eq. intros [u v]. by rewrite HE, elem_of_joined_pairs. }
    unfold number_of_edges. fold (edge_ends_sum
      (_adj (_build_graph airports_df routes_df))).
    rewrite Hsum. rewrite Z.mul_comm, Z.div_mul by done. done. }
  split; [done|]. rewrite Heq. apply inj_le. unfold joined_pairs.
  etrans; [apply size_list_to_set_length|].
  rewrite length_fmap. apply length_filter.
Qed.

(** * Counting components *)

Lemma components_step_inv (g : Graph) (seen : gset Z) (count : Z)
    (reps : list Z) (v : Z) :
  graph_wf g → v ∈ nodes g →
  components_inv g seen count reps →
  ∃ reps',
    components_inv g (components_step g (seen, count) v).1
                   (components_step g (seen, count) v).2 reps' ∧
    v ∈ (components_step g (seen, count) v).1 ∧
    seen ⊆ (components_step g (seen, count) v).1.
Proof.
  intros Hwf Hv (Hcount & Hnd & Hnodes & Hseen & Hsep).
  unfold components_step. simpl.
  destruct (decide (v ∈ seen)) as [Hin|Hnew]; simpl.
  - exists reps. by split_and!.
  - assert (∀ w, w ∈ _plain_bfs g v ↔ reachable g v w) as Hbfs.
    { intros w. by apply elem_of_plain_bfs. }
    assert (∀ r, r ∈ reps → ¬ reachable g r v) as Hfar.
    { intros r Hr Hrv. apply Hnew, Hseen. eauto. }
    exists (reps ++ [v]). split_and!.
    + split_and!.
      * rewrite length_app. simpl. lia.
      * apply NoDup_app. split_and!; [done | | apply NoDup_singleton].
        intros r Hr ->%list_elem_of_singleton.
        apply (Hfar v Hr). exists 0%nat. by constructor.
      * intros r [Hr| ->%list_elem_of_singleton]%elem_of_app; auto.
      * intros w. rewrite elem_of_union, Hseen, Hbfs. split.
        -- intros [(r & Hr & Hw)|Hw].
           ++ exists r. split; [apply elem_of_app; by left | done].
           ++ exists v. split; [apply elem_of_app; right; left | done].
        -- intros (r & [Hr| ->%list_elem_of_singleton]%elem_of_app & Hw);
             [left; eauto | by right].
      * intros r r' [Hr| ->%list_elem_of_singleton]%elem_of_app
                     [Hr'| ->%list_elem_of_singleton]%elem_of_app Hreach.
        -- by apply Hsep.
        -- by destruct (Hfar r Hr).
        -- destruct (Hfar r' Hr'). destruct Hreach as [k Hk].
           exists k. by apply walk_sym.
        -- done.
    + apply elem_of_union. right. apply Hbfs. exists 0%nat. by constructor.
    + set_solver.
Qed.

Lemma components_fold_inv (g : Graph) (l : list Z) :
  graph_wf g → (∀ v, v ∈ l → v ∈ nodes g) →
  ∀ (seen : gset Z) (count : Z) (reps : list Z),
    components_inv g seen count reps →
    ∃ reps',
      components_inv g (foldl (components_step g) (seen, count) l).1
                     (foldl (components_step g) (seen, count) l).2 reps' ∧
      (∀ v, v ∈ l → v ∈ (foldl (components_step g) (seen, count) l).1) ∧
      seen ⊆ (foldl (components_step g) (seen, count) l).1.
Proof.
  intros Hwf. induction l as [|v l IH]; intros Hl seen count reps Hinv.
  - exists reps. split_and!; [done | by intros v ?%elem_of_nil | done].
  - cbn [foldl].
    destruct (components_step_inv g seen count reps v Hwf) as
      (reps1 & Hinv1 & Hv1 & Hsub1); [apply Hl; left | done |].
    destruct (components_step g (seen, count) v) as [seen1 count1] eqn:Hstep.
    simpl in *.
    destruct (IH (λ w Hw, Hl w (proj2 (elem_of_cons l w v) (or_intror Hw)))
                 seen1 count1 reps1 Hinv1) as (reps2 & Hinv2 & Hall2 & Hsub2).
    exists reps2. split_and!; [done | | set_solver].
    intros w [->|Hw]%elem_of_cons; [by apply Hsub2 | by apply Hall2].
Qed.

(** [nx.number_connected_components] counts the classes of mutually
    reachable nodes. *)
Lemma number_connected_components_spec (g : Graph) :
  graph_wf g →
  ∃ reps, component_representatives g reps ∧
          number_connected_components g = Z.of_nat (length reps).
Proof.
  intros Hwf. unfold number_connected_components.
  destruct (components_fold_inv g (nodes g) Hwf (λ v Hv, Hv) ∅ 0 [])
    as (reps & (Hcount & Hnd & Hnodes & Hseen & Hsep) & Hall & _).
  { split_and!; [done | constructor | by intros r ?%elem_of_nil | |
                 by intros r r' ?%elem_of_nil].
    intros v. split; [by intros ?%not_elem_of_empty|].
    by intros (r & ?%elem_of_nil & _). }
  exists reps. split; [|done]. split_and!; [done..| |done].
  intros v Hv. by apply Hseen, Hall.
Qed.

(** One class exactly when the graph is connected. *)
Lemma component_representatives_connected (g : Graph) (reps : list Z) :
  graph_wf g → nodes g ≠ [] →
  component_representatives g reps →
  (0 < length reps)%nat ∧ (length reps = 1%nat ↔ connected g).
Proof.
  intros Hwf Hne (Hnd & Hnodes & Hcover & Hsep).
  assert (0 < length reps)%nat as Hpos.
  { destruct (nodes g) as [|v l] eqn:Hn; [done|].
    destruct (Hcover v) as (r & Hr & _); [left|].
    destruct reps; [by apply elem_of_nil in Hr | simpl; lia]. }
  split; [done|]. split.
  - intros Hone. destruct reps as [|r [|? ?]]; simplify_eq/=.
    apply (connected_from g Hwf r); [apply Hnodes; left|].
    intros v Hv. destruct (Hcover v Hv) as (r' & ->%list_elem_of_singleton & Hw).
    done.
  - intros [_ Hall]. destruct reps as [|r [|r' reps]]; simpl in *; [lia | done |].
    assert (r = r'); [|subst; apply NoDup_cons in Hnd as [Hnd _]; set_solver].
    apply Hsep; [left | right; left |].
    apply Hall; apply Hnodes; [left | right; left].
Qed.

(** The statistics of a graph with nodes, field by field. *)
Lemma statistics_fields (g : Graph) :
  graph_wf g → nodes g ≠ [] →
  ∃ st, get_network_statistics g = Ok st ∧
        total_airports st = Z.of_nat (length (nodes g)) ∧
        total_routes st = number_of_edges g ∧
        avg_connections st = np_mean (degree g <$> nodes g) ∧
        py_max (degree g <$> nodes g) = Ok (max_connections st) ∧
        connected_components st = number_connected_components g ∧
        ((connected g ∧ ∃ d : nat, diameter st = PyInt (Z.of_nat d)) ∨
         (¬ connected g ∧ diameter st = PyStr not_connected_text)).
Proof.
  intros Hwf Hne. unfold get_network_statistics.
  rewrite (mapM_Ok _ (degree g)).
  2:{ intros n Hn. by apply connections_degree, (wf_dom g Hwf). }
  cbn [mbind result_bind].
  destruct (py_max_spec (degree g <$> nodes g)) as (m & Hm & _).
  { by destruct (nodes g). }
  rewrite Hm. cbn [mbind result_bind].
  destruct (is_connected_spec g Hwf Hne) as (b & -> & Hb).
  cbn [mbind result_bind]. destruct b.
  - assert (connected g) as Hconn by by apply Hb.
    destruct (nx_diameter_spec g Hwf Hconn) as (d & -> & Hd).
    cbn [mbind result_bind]. eexists. split; [done|]. simpl.
    split_and!; [done..|]. left. split; [done | by exists d].
  - cbn [mbind result_bind]. eexists. split; [done|]. simpl.
    split_and!; [done..|]. right. split; [|done]. intros Hconn%Hb. done.
Qed.

Lemma nodes_build_nonempty (airports_df : list Airport)
    (routes_df : list Route) :
  airports_df ≠ [] → nodes (_build_graph airports_df routes_df) ≠ [].
Proof.
  destruct airports_df as [|a l]; [done|]. intros _ Hnil.
  assert (airport_id a ∈ nodes (_build_graph (a :: l) routes_df)) as Hin.
  { apply elem_of_nodes_build. unfold airport_ids. rewrite fmap_cons. left. }
  rewrite Hnil in Hin. by apply elem_of_nil in Hin.
Qed.

(** For a non-empty airport table, [connected_components] is the number of
    classes of mutually reachable airports: there is a list with one airport
    of every class, and the field is its length. *)
Theorem statistics_connected_components (airports_df : list Airport)
    (routes_df : list Route) :
  airports_df ≠ [] →
  let g := _build_graph airports_df routes_df in
  ∃ st reps,
    get_network_statistics g = Ok st ∧
    component_representatives g reps ∧
    connected_components st = Z.of_nat (length reps).
Proof.
  intros Hne g.
  pose proof (graph_wf_build airports_df routes_df) as Hwf. fold g in Hwf.
  destruct (statistics_fields g Hwf) as (st & Hst & _ & _ & _ & _ & Hcc & _).
  { by apply nodes_build_nonempty. }
  destruct (number_connected_components_spec g Hwf) as (reps & Hreps & Hn).
  exists st, reps. split_and!; [done..|]. by rewrite Hcc.
Qed.

Lemma statistics_connected_components_witness :
  let g := _build_graph split_airports split_routes in
  ∃ st reps,
    get_network_statistics g = Ok st ∧
    component_representatives g reps ∧
    connected_components st = Z.of_nat (length reps).
Proof.
  apply (statistics_connected_components split_airports split_routes).
  discriminate.
Defined.

(** The fields agree with one another: the diameter is a number exactly
    when [connected_components] is 1, and there is at least one component. *)
Theorem statistics_diameter_iff_one_component (airports_df : list Airport)
    (routes_df : list Route) :
  airports_df ≠ [] →
  ∃ st,
    get_network_statistics (_build_graph airports_df routes_df) = Ok st ∧
    1 ≤ connected_components st ∧
    ((∃ d, diameter st = PyInt d) ↔ connected_components st = 1) ∧
    (diameter st = PyStr not_connected_text ↔ 1 < connected_components st).
Proof.
  intros Hne. set (g := _build_graph airports_df routes_df).
  pose proof (graph_wf_build airports_df routes_df) as Hwf. fold g in Hwf.
  pose proof (nodes_build_nonempty airports_df routes_df Hne) as Hnodes.
  fold g in Hnodes.
  destruct (statistics_fields g Hwf Hnodes)
    as (st & Hst & _ & _ & _ & _ & Hcc & Hdiam).
  destruct (number_connected_components_spec g Hwf) as (reps & Hreps & Hn).
  destruct (component_representatives_connected g reps Hwf Hnodes Hreps)
    as [Hpos Hone].
  exists st. rewrite Hcc, Hn. split_and!; [done | lia | |].
  - destruct Hdiam as [[Hconn [d Hd]]|[Hnc Hd]].
    + split; [|by eauto]. intros _. apply Hone in Hconn. lia.
    + split; [intros [d Hd']; congruence|].
      intros H1. destruct Hnc. apply Hone. lia.
  - destruct Hdiam as [[Hconn [d Hd]]|[Hnc Hd]].
    + split; [congruence|]. apply Hone in Hconn. lia.
    + split; [|done]. intros _.
      assert (length reps ≠ 1%nat) by (intros H1; by apply Hnc, Hone). lia.
Qed.

Lemma statistics_diameter_iff_one_component_witness :
  ∃ st,
    get_network_statistics (_build_graph example_airports example_routes)
    = Ok st ∧
    1 ≤ connected_components st ∧
    ((∃ d, diameter st = PyInt d) ↔ connected_components st = 1) ∧
    (diameter st = PyStr not_connected_text ↔ 1 < connected_components st).
Proof.
  apply (statistics_diameter_iff_one_component example_airports example_routes).
  discriminate.
Defined.

(** * The counts and the degrees in the statistics *)

Lemma map_to_list_adj_nodes (g : Graph) :
  graph_wf g →
  map_to_list (_adj g)
  ≡ₚ (λ n, (n, default (∅ : gset Z) (_adj g !! n))) <$> nodes g.
Proof.
  intros Hwf. apply NoDup_Permutation.
  - apply NoDup_map_to_list.
  - apply NoDup_fmap_2_strong; [|apply (wf_nodup g Hwf)].
    by intros x y _ _ [= ->].
  - intros [n s]. rewrite elem_of_map_to_list, list_elem_of_fmap. split.
    + intros Hn. exists n. rewrite Hn. split; [done|].
      apply (wf_dom g Hwf). by eexists.
    + intros (n' & [= -> ->] & Hn'). apply (wf_dom g Hwf) in Hn' as [s ->].
      done.
Qed.

(** The sum of the connection counts, with one more for every self-loop, is
    the sum of edge ends. *)
Lemma edge_ends_sum_nodes (g : Graph) :
  graph_wf g →
  edge_ends_sum (_adj g)
  = foldr Z.add 0 (degree g <$> nodes g)
    + Z.of_nat (length (self_loop_nodes g)).
Proof.
  intros Hwf. unfold edge_ends_sum, self_loop_nodes.
  rewrite (edge_ends_sum_perm _ _ (map_to_list_adj_nodes g Hwf)).
  induction (nodes g) as [|n l IH]; [done|].
  rewrite !fmap_cons, filter_cons. cbn [foldr]. rewrite IH.
  unfold edge_ends, degree. simpl.
  destruct (decide (n ∈ default ∅ (_adj g !! n))); simpl; lia.
Qed.

Lemma degree_le_nodes (g : Graph) (n : Z) :
  graph_wf g → 0 ≤ degree g n ≤ Z.of_nat (length (nodes g)).
Proof.
  intros Hwf. unfold degree. split; [lia|]. apply inj_le.
  rewrite <- (size_list_to_set (C := gset Z) (nodes g))
    by apply (wf_nodup g Hwf).
  apply subseteq_size. intros v Hv. apply elem_of_list_to_set.
  apply (wf_closed g Hwf n v). by apply has_edge_lookup.
Qed.

(** For a non-empty airport table: [total_airports] is the number of
    distinct ids of the table, and [total_routes] the number of unordered
    pairs of airports joined by some route with both ends in the table,
    which is at most the number of route rows. *)
Theorem statistics_totals (airports_df : list Airport)
    (routes_df : list Route) :
  airports_df ≠ [] →
  ∃ st,
    get_network_statistics (_build_graph airports_df routes_df) = Ok st ∧
    total_airports st
    = Z.of_nat (length (first_occurrences (airport_ids airports_df))) ∧
    total_routes st = Z.of_nat (size (joined_pairs airports_df routes_df)) ∧
    total_routes st ≤ Z.of_nat (length routes_df).
Proof.
  intros Hne. set (g := _build_graph airports_df routes_df).
  pose proof (graph_wf_build airports_df routes_df) as Hwf. fold g in Hwf.
  pose proof (nodes_build_nonempty airports_df routes_df Hne) as Hnodes.
  fold g in Hnodes.
  destruct (statistics_fields g Hwf Hnodes) as (st & Hst & Hta & Htr & _).
  exists st. rewrite Hta, Htr.
  destruct (number_of_edges_counts_pairs airports_df routes_df) as [H1 H2].
  split_and!; [done | | done | done].
  f_equal. f_equal. unfold g, _build_graph.
  rewrite nodes_add_routes, nodes_add_airports_first.
  unfold nodes at 1 2. simpl.
  induction (first_occurrences (airport_ids airports_df)) as [|x F IH];
    [done|].
  rewrite filter_cons, decide_True by apply not_elem_of_nil. by f_equal.
Qed.

Lemma statistics_totals_witness :
  ∃ st,
    get_network_statistics (_build_graph repeated_airports example_routes)
    = Ok st ∧
    total_airports st
    = Z.of_nat (length (first_occurrences (airport_ids repeated_airports))) ∧
    total_routes st
    = Z.of_nat (size (joined_pairs repeated_airports example_routes)) ∧
    total_routes st ≤ Z.of_nat (length example_routes).
Proof.
  apply (statistics_totals repeated_airports example_routes). discriminate.
Defined.

(** For a non-empty airport table: [max_connections] is the connection
    count of some airport and no airport has more; it is at most the number
    of airports; and [avg_connections] is the sum of the connection counts
    over the number of airports, where that sum plus the number of airports
    with a route to themselves is twice [total_routes]. *)
Theorem statistics_degrees (airports_df : list Airport)
    (routes_df : list Route) :
  airports_df ≠ [] →
  let g := _build_graph airports_df routes_df in
  ∃ st total,
    get_network_statistics g = Ok st ∧
    (∃ n, n ∈ nodes g ∧ connections g n = Ok (max_connections st)) ∧
    (∀ n, n ∈ nodes g →
          ∃ c, connections g n = Ok c ∧ 0 ≤ c ≤ max_connections st) ∧
    max_connections st ≤ total_airports st ∧
    avg_connections st
    = np_quot (Qmake total (Pos.of_nat (length (nodes g)))) ∧
    total + Z.of_nat (length (self_loop_nodes g)) = 2 * total_routes st.
Proof.
  intros Hne g.
  pose proof (graph_wf_build airports_df routes_df) as Hwf. fold g in Hwf.
  pose proof (nodes_build_nonempty airports_df routes_df Hne) as Hnodes.
  fold g in Hnodes.
  destruct (statistics_fields g Hwf Hnodes)
    as (st & Hst & Hta & Htr & Havg & Hmax & _).
  destruct (py_max_spec (degree g <$> nodes g)) as (m & Hm & Hin & Hall).
  { by destruct (nodes g). }
  rewrite Hm in Hmax. injection Hmax as ->.
  assert (∀ n, n ∈ nodes g → connections g n = Ok (degree g n)) as Hconn.
  { intros n Hn. by apply connections_degree, (wf_dom g Hwf). }
  exists st, (foldr Z.add 0 (degree g <$> nodes g)). split_and!; [done | | | | |].
  - apply list_elem_of_fmap in Hin as (n & -> & Hn). exists n.
    split; [done | by apply Hconn].
  - intros n Hn. exists (degree g n). split; [by apply Hconn|].
    split; [apply (degree_le_nodes g n Hwf)|].
    apply Hall. by apply list_elem_of_fmap_2.
  - apply list_elem_of_fmap in Hin as (n & -> & Hn). rewrite Hta.
    apply (degree_le_nodes g n Hwf).
  - rewrite Havg. unfold np_mean. rewrite length_fmap.
    destruct (nodes g); [done|]. done.
  - rewrite Htr, <- edge_ends_sum_nodes by done.
    destruct (edges_counted_build airports_df routes_df) as (E & _ & Hsum).
    fold g in Hsum. unfold number_of_edges.
    fold (edge_ends_sum (_adj g)). rewrite Hsum.
    rewrite (Z.mul_comm 2), Z.div_mul by done. lia.
Qed.

Lemma statistics_degrees_witness :
  let g := _build_graph split_airports [mkRoute 1 2 "x"; mkRoute 3 3 "y"] in
  ∃ st total,
    get_network_statistics g = Ok st ∧
    (∃ n, n ∈ nodes g ∧ connections g n = Ok (max_connections st)) ∧
    (∀ n, n ∈ nodes g →
          ∃ c, connections g n = Ok c ∧ 0 ≤ c ≤ max_connections st) ∧
    max_connections st ≤ total_airports st ∧
    avg_connections st
    = np_quot (Qmake total (Pos.of_nat (length (nodes g)))) ∧
    total + Z.of_nat (length (self_loop_nodes g)) = 2 * total_routes st.
Proof.
  apply (statistics_degrees split_airports
           [mkRoute 1 2 "x"; mkRoute 3 3 "y"]).
  discriminate.
Defined.

(** * Ranking with a negative count *)

Lemma top_airports_ids_slice (g : Graph) (n : Z) :
  graph_wf g →
  top_airports_ids g n =
  Ok (slice_to n (sorted_reverse (degree g) (nodes g))).
Proof.
  intros Hwf. unfold top_airports_ids.
  destruct (count_connections_spec g (nodes g) []) as (d & -> & Hk & Hget).
  - intros i Hi. by apply (wf_dom g Hwf).
  - apply (wf_nodup g Hwf).
  - simpl in Hk. cbn [mbind result_bind]. rewrite Hk. do 2 f_equal.
    apply sorted_reverse_ext. intros y Hy. rewrite Hget.
    by rewrite decide_True.
Qed.

(** [get_top_airports] with a negative [n] does not fail: Python's slice
    [[:n]] then drops the last [-n] ids of the ranking, so the rows returned
    are those of all airports but the [-n] ranked last (no row at all when
    there are at most [-n] airports). *)
Theorem top_airports_negative_count (airports_df : list Airport)
    (routes_df : list Route) (n : Z) :
  n < 0 →
  let g := _build_graph airports_df routes_df in
  ∃ top,
    top_airports_ids g n = Ok top ∧
    get_top_airports airports_df g n = Ok (isin_rows top airports_df) ∧
    NoDup top ∧
    (∀ x, x ∈ top → x ∈ nodes g) ∧
    length top = (length (nodes g) - Z.to_nat (- n))%nat ∧
    (∀ x y, x ∈ top → y ∈ nodes g → y ∉ top →
            ranks_above (degree g) (nodes g) x y).
Proof.
  intros Hn g.
  pose proof (graph_wf_build airports_df routes_df) as Hwf. fold g in Hwf.
  set (ranking := sorted_reverse (degree g) (nodes g)).
  pose proof (sorted_reverse_perm (degree g) (nodes g)) as Hperm.
  pose proof (sorted_reverse_sorted (degree g) (nodes g)) as Hsorted.
  fold ranking in Hperm, Hsorted.
  assert (NoDup ranking) as Hnd by (rewrite Hperm; apply (wf_nodup g Hwf)).
  set (k := Z.to_nat (Z.of_nat (length ranking) + n)).
  assert (slice_to n ranking = take k ranking) as Hslice.
  { unfold slice_to. by rewrite decide_False by lia. }
  exists (take k ranking). split_and!.
  - rewrite top_airports_ids_slice by done. fold ranking. by rewrite Hslice.
  - unfold get_top_airports. rewrite top_airports_ids_slice by done.
    fold ranking. by rewrite Hslice.
  - eapply sublist_NoDup; [exact Hnd | apply sublist_take].
  - intros x Hx. rewrite <- Hperm. by eapply subseteq_take.
  - rewrite length_take. unfold k. rewrite Hperm. lia.
  - intros x y Hx Hy Hny.
    rewrite <- (take_drop k ranking) in Hsorted.
    eapply StronglySorted_app_1_elem_of; [exact Hsorted | exact Hx |].
    rewrite <- Hperm, <- (take_drop k ranking) in Hy.
    apply elem_of_app in Hy as [?|?]; done.
Qed.

Lemma top_airports_negative_count_witness :
  let g := _build_graph example_airports example_routes in
  ∃ top,
    top_airports_ids g (-1) = Ok top ∧
    get_top_airports example_airports g (-1)
    = Ok (isin_rows top example_airports) ∧
    NoDup top ∧
    (∀ x, x ∈ top → x ∈ nodes g) ∧
    length top = (length (nodes g) - Z.to_nat (- -1))%nat ∧
    (∀ x y, x ∈ top → y ∈ nodes g → y ∉ top →
            ranks_above (degree g) (nodes g) x y).
Proof.
  apply (top_airports_negative_count example_airports example_routes (-1)).
  lia.
Defined.

(** * GeoMath: the distance as an arc, the ends of a path *)

Section GeoMath_more.
Local Open Scope R_scope.

Lemma asin_nonneg (x : R) : 0 <= x <= 1 → 0 <= asin x <= PI / 2.
Proof.
  intros Hx. pose proof (asin_bound x) as [Hlo Hhi]. split; [|done].
  destruct (Rle_lt_dec 0 (asin x)) as [|Hneg]; [done|].
  pose proof PI_RGT_0.
  assert (sin (asin x) < 0) as Hsin by (apply sin_lt_0_var; lra).
  rewrite sin_asin in Hsin by lra. lra.
Qed.

(** In exact arithmetic [haversine_distance] is the length of the arc of a
    great circle, on a sphere of radius 6371, between the two points: it
    lies between 0 and half the circumference, and the cosine of the angle
    it subtends is the scalar product of the two unit vectors. *)
Theorem haversine_distance_is_arc (lat1 lon1 lat2 lon2 : R) :
  ∃ d, haversine_distance lat1 lon1 lat2 lon2 = Ok d ∧
       0 <= d <= PI * 6371 ∧
       cos (d / 6371) =
       sin (radians lat1) * sin (radians lat2) +
       cos (radians lat1) * cos (radians lat2)
       * cos (radians lon2 - radians lon1).
Proof.
  rewrite haversine_distance_value. eexists. split; [done|].
  set (φ1 := radians lat1). set (φ2 := radians lat2).
  set (λ1 := radians lon1). set (λ2 := radians lon2).
  pose proof (hav_a_bounds φ1 λ1 φ2 λ2) as Ha.
  set (a := hav_a φ1 λ1 φ2 λ2) in *.
  pose proof (sqrt_unit a Ha) as Hs. pose proof (sqrt_pos a) as Hs0.
  pose proof (asin_nonneg (sqrt a) ltac:(lra)) as Hasin.
  pose proof PI_RGT_0. split; [nra|].
  replace (2 * asin (sqrt a) * 6371 / 6371) with (2 * asin (sqrt a))
    by (field; lra).
  rewrite cos_2a_sin, sin_asin by lra.
  rewrite Rmult_assoc, sqrt_sqrt by lra.
  unfold a, hav_a. rewrite !sin_half_sqr, cos_minus. lra.
Qed.


Lemma atan2_scale (k y x : R) : 0 < k → atan2 (k * y) (k * x) = atan2 y x.
Proof.
  intros Hk. unfold atan2.
  assert (x ≠ 0 → k * y / (k * x) = y / x) as Hq by (intros; field; lra).
  repeat match goal with
         | |- context [Rlt_dec ?a ?b] => destruct (Rlt_dec a b)
         | |- context [Rle_dec ?a ?b] => destruct (Rle_dec a b)
         end;
    try (exfalso; nra); rewrite ?Hq by lra; reflexivity.
Qed.

Lemma tan_shift_minus (t : R) : sin t / cos t = tan (t - PI).
Proof.
  unfold tan. pose proof (neg_sin (t - PI)) as Hs.
  pose proof (neg_cos (t - PI)) as Hc.
  replace (t - PI + PI) with t in * by lra. rewrite Hs, Hc.
  destruct (Req_dec (cos (t - PI)) 0) as [H0|H0].
  - rewrite H0. unfold Rdiv. rewrite Ropp_0, Rinv_0. ring.
  - field. done.
Qed.

Lemma tan_shift_plus (t : R) : sin t / cos t = tan (t + PI).
Proof.
  unfold tan. rewrite neg_sin, neg_cos.
  destruct (Req_dec (cos t) 0) as [H0|H0].
  - rewrite H0. unfold Rdiv. rewrite Ropp_0, Rinv_0. ring.
  - field. done.
Qed.

(** [atan2] recovers an angle of [(-PI, PI]] from its sine and cosine. *)
Lemma atan2_sin_cos (t : R) : - PI < t <= PI → atan2 (sin t) (cos t) = t.
Proof.
  intros [Hlo Hhi]. pose proof PI_RGT_0 as Hpi. unfold atan2.
  assert (- (PI / 2) <= t <= PI / 2 → 0 <= cos t) as Hc_mid
    by (intros [? ?]; by apply cos_ge_0).
  assert (PI / 2 < t → cos t < 0) as Hc_hi
    by (intros ?; apply cos_lt_0; lra).
  assert (t < - (PI / 2) → cos t < 0) as Hc_lo.
  { intros ?. rewrite <- cos_neg. apply cos_lt_0; lra. }
  assert (- (PI / 2) < t < PI / 2 → 0 < cos t) as Hc_in
    by (intros [? ?]; by apply cos_gt_0).
  assert (t < 0 → sin t < 0) as Hs_neg
    by (intros ?; by apply sin_lt_0_var).
  assert (0 <= t → 0 <= sin t) as Hs_pos
    by (intros ?; by apply sin_ge_0).
  destruct (Rlt_dec 0 (cos t)) as [Hpos|Hnpos].
  - assert (- (PI / 2) < t < PI / 2) as Hin.
    { split.
      - destruct (Rlt_le_dec (- (PI / 2)) t) as [|Hle]; [done|].
        destruct (Req_dec t (- (PI / 2))) as [->|Hne].
        + rewrite cos_neg, cos_PI2 in Hpos. lra.
        + assert (cos t < 0) by (apply Hc_lo; lra). lra.
      - destruct (Rlt_le_dec t (PI / 2)) as [|Hle]; [done|].
        destruct (Req_dec t (PI / 2)) as [->|Hne].
        + rewrite cos_PI2 in Hpos. lra.
        + assert (cos t < 0) by (apply Hc_hi; lra). lra. }
    fold (tan t). by apply atan_tan.
  - destruct (Rlt_dec (cos t) 0) as [Hneg|Hnneg].
    + destruct (Rle_dec 0 (sin t)) as [Hs|Hs].
      * assert (PI / 2 < t) as Ht.
        { destruct (Rlt_le_dec (PI / 2) t) as [|Hle]; [done|].
          destruct (Rlt_le_dec t (- (PI / 2))) as [Hlt|Hge].
          - assert (sin t < 0) by (apply Hs_neg; lra). lra.
          - assert (0 <= cos t) by (apply Hc_mid; lra). lra. }
        rewrite tan_shift_minus, atan_tan by lra. lra.
      * assert (t < - (PI / 2)) as Ht.
        { destruct (Rlt_le_dec t (- (PI / 2))) as [|Hge]; [done|].
          destruct (Rlt_le_dec t 0) as [Hlt|Hge0].
          - assert (0 <= cos t) by (apply Hc_mid; lra). lra.
          - assert (0 <= sin t) by (apply Hs_pos; lra). lra. }
        rewrite tan_shift_plus, atan_tan by lra. lra.
    + assert (cos t = 0) as Hzero by lra.
      assert (t = PI / 2 ∨ t = - (PI / 2)) as [->| ->].
      { destruct (Rlt_le_dec (PI / 2) t) as [Hgt|Hle].
        - assert (cos t < 0) by (by apply Hc_hi). lra.
        - destruct (Rlt_le_dec t (- (PI / 2))) as [Hlt|Hge].
          + assert (cos t < 0) by (by apply Hc_lo). lra.
          + destruct (Req_dec t (PI / 2)) as [|Hne1]; [by left|].
            destruct (Req_dec t (- (PI / 2))) as [|Hne2]; [by right|].
            assert (0 < cos t) by (apply Hc_in; lra). lra. }
      * rewrite sin_PI2. destruct (Rlt_dec 0 1); [done | lra].
      * rewrite sin_neg, sin_PI2.
        repeat match goal with
               | |- context [Rlt_dec ?a ?b] => destruct (Rlt_dec a b)
               end; lra.
Qed.

(** A point strictly between the poles is recovered from its unit vector. *)
Lemma sphere_point (φ λ0 : R) :
  - (PI / 2) < φ < PI / 2 → - PI < λ0 <= PI →
  atan2 (sin φ) (sqrt ((cos φ * cos λ0) ^ 2 + (cos φ * sin λ0) ^ 2)) = φ ∧
  atan2 (cos φ * sin λ0) (cos φ * cos λ0) = λ0.
Proof.
  intros Hφ Hλ. pose proof PI_RGT_0.
  assert (0 < cos φ) as Hc by (apply cos_gt_0; lra).
  pose proof (sin2_cos2 λ0) as H1. unfold Rsqr in H1.
  replace ((cos φ * cos λ0) ^ 2 + (cos φ * sin λ0) ^ 2)
    with (cos φ ^ 2 * (sin λ0 * sin λ0 + cos λ0 * cos λ0)) by ring.
  rewrite H1, Rmult_1_r, sqrt_pow2 by lra. split.
  - apply atan2_sin_cos. lra.
  - rewrite atan2_scale by done. by apply atan2_sin_cos.
Qed.

Lemma degrees_radians (x : R) : degrees (radians x) = x.
Proof. unfold degrees, radians. pose proof PI_RGT_0. field. lra. Qed.

Lemma radians_lat (lat : R) :
  -90 < lat < 90 → - (PI / 2) < radians lat < PI / 2.
Proof. intros ?. unfold radians. pose proof PI_RGT_0. split; nra. Qed.

Lemma radians_lon (lon : R) :
  -180 < lon <= 180 → - PI < radians lon <= PI.
Proof. intros ?. unfold radians. pose proof PI_RGT_0. split; nra. Qed.



Lemma slerp_weight_linear (w c : R) : sin c = 0 → slerp_weight w c = Ok w.
Proof.
  intros Hc. unfold slerp_weight. by destruct (Req_dec_T (sin c) 0).
Qed.

(** The point that the loop computes from weights [A] and [B]. *)
Lemma path_point_weights (lat1 lon1 lat2 lon2 c : R) (num_points i : Z)
    (A B : R) :
  num_points ≠ 0%Z →
  slerp_weight (1 - IZR i / IZR num_points) c = Ok A →
  slerp_weight (IZR i / IZR num_points) c = Ok B →
  path_point lat1 lon1 lat2 lon2 c num_points i =
  Ok (degrees
        (atan2 (A * sin lat1 + B * sin lat2)
           (sqrt ((A * cos lat1 * cos lon1 + B * cos lat2 * cos lon2) ^ 2 +
                  (A * cos lat1 * sin lon1 + B * cos lat2 * sin lon2) ^ 2))),
      degrees
        (atan2 (A * cos lat1 * sin lon1 + B * cos lat2 * sin lon2)
               (A * cos lat1 * cos lon1 + B * cos lat2 * cos lon2))).
Proof.
  intros Hn HA HB. unfold path_point, int_truediv.
  rewrite decide_False by done. cbn [mbind result_bind].
  rewrite HA, HB. cbn [mbind result_bind]. rewrite py_sqrt_ok; [done|].
  pose proof (pow2_ge_0 (A * cos lat1 * cos lon1 + B * cos lat2 * cos lon2)).
  pose proof (pow2_ge_0 (A * cos lat1 * sin lon1 + B * cos lat2 * sin lon2)).
  lra.
Qed.



Lemma path_point_same (lat lon c : R) (num_points i : Z) :
  num_points ≠ 0%Z → sin c = 0 → -90 < lat < 90 → -180 < lon <= 180 →
  path_point (radians lat) (radians lon) (radians lat) (radians lon)
             c num_points i
  = Ok (lat, lon).
Proof.
  intros Hn Hc Hlat Hlon.
  rewrite (path_point_weights _ _ _ _ _ _ _ _ _ Hn
             (slerp_weight_linear _ c Hc) (slerp_weight_linear _ c Hc)).
  set (f := IZR i / IZR num_points).
  destruct (sphere_point (radians lat) (radians lon)) as [H1 H2];
    [by apply radians_lat | by apply radians_lon |].
  replace ((1 - f) * sin (radians lat) + f * sin (radians lat))
    with (sin (radians lat)) by ring.
  replace ((1 - f) * cos (radians lat) * cos (radians lon)
           + f * cos (radians lat) * cos (radians lon))
    with (cos (radians lat) * cos (radians lon)) by ring.
  replace ((1 - f) * cos (radians lat) * sin (radians lon)
           + f * cos (radians lat) * sin (radians lon))
    with (cos (radians lat) * sin (radians lon)) by ring.
  by rewrite H1, H2, !degrees_radians.
Qed.

(** The lists the loop returns hold, in order, the points of its range. *)
Lemma path_loop_values (lat1 lon1 lat2 lon2 c : R) (num_points : Z)
    (range : list Z) :
  ∀ (lats lons lats' lons' : list R),
    path_loop lat1 lon1 lat2 lon2 c num_points range lats lons
    = Ok (lats', lons') →
    ∃ L M, lats' = lats ++ L ∧ lons' = lons ++ M ∧
           length L = length range ∧ length M = length range ∧
           ∀ j i, range !! j = Some i →
                  ∃ p, path_point lat1 lon1 lat2 lon2 c num_points i = Ok p ∧
                       L !! j = Some p.1 ∧ M !! j = Some p.2.
Proof.
  induction range as [|i range IH]; intros lats lons lats' lons' Hrun;
    cbn [path_loop] in Hrun.
  - injection Hrun as <- <-. exists [], []. rewrite !app_nil_r.
    split_and!; [done..|]. intros j i Hj. by rewrite lookup_nil in Hj.
  - destruct (path_point lat1 lon1 lat2 lon2 c num_points i) as [p|e] eqn:Hp;
      [|done].
    cbn [mbind result_bind] in Hrun.
    destruct (IH _ _ _ _ Hrun) as (L & M & -> & -> & HL & HM & Hall).
    exists (p.1 :: L), (p.2 :: M). rewrite <- !app_assoc. simpl.
    split_and!; [done | done | by f_equal | by f_equal |].
    intros [|j] i' Hj; simpl in Hj.
    + injection Hj as <-. by exists p.
    + by apply Hall.
Qed.

Lemma great_circle_path_loop_c (lat1 lon1 lat2 lon2 : R) (num_points : Z) :
  great_circle_path lat1 lon1 lat2 lon2 num_points =
  path_loop (radians lat1) (radians lon1) (radians lat2) (radians lon2)
    (2 * atan2 (sqrt (hav_a (radians lat1) (radians lon1)
                            (radians lat2) (radians lon2)))
               (sqrt (1 - hav_a (radians lat1) (radians lon1)
                                (radians lat2) (radians lon2))))
    num_points (seqZ 0 (num_points + 1)) [] [].
Proof.
  unfold great_circle_path.
  pose proof (hav_a_bounds (radians lat1) (radians lon1)
                           (radians lat2) (radians lon2)) as Ha.
  rewrite !py_sqrt_ok by lra. done.
Qed.




(** In exact arithmetic, when source and destination are the same point,
    strictly between the poles and with longitude in (-180, 180], the linear
    weights are used and every point of the path is that point. *)
Theorem great_circle_path_same_point (lat lon : R) (num_points : Z) :
  -90 < lat < 90 → -180 < lon <= 180 → num_points ≠ 0%Z →
  ∃ lats lons,
    great_circle_path lat lon lat lon num_points = Ok (lats, lons) ∧
    length lats = Z.to_nat (num_points + 1) ∧
    length lons = Z.to_nat (num_points + 1) ∧
    Forall (λ v, v = lat) lats ∧ Forall (λ v, v = lon) lons.
Proof.
  intros Hlat Hlon Hn.
  rewrite great_circle_path_loop_c, hav_a_same.
  assert (sin (2 * atan2 (sqrt 0) (sqrt (1 - 0))) = 0) as Hc.
  { rewrite Rminus_0_r, sqrt_0, sqrt_1. unfold atan2.
    destruct (Rlt_dec 0 1); [|lra].
    replace (0 / 1) with 0 by field. by rewrite atan_0, Rmult_0_r, sin_0. }
  set (c := 2 * atan2 _ _) in *.
  destruct (path_loop_ok (radians lat) (radians lon) (radians lat)
              (radians lon) c num_points (seqZ 0 (num_points + 1)) [] [] Hn)
    as (lats & lons & Hrun & Hl1 & Hl2).
  exists lats, lons. rewrite length_seqZ in Hl1, Hl2.
  split_and!; [done..| |].
  - destruct (path_loop_values _ _ _ _ _ _ _ _ _ _ _ Hrun)
      as (L & M & -> & -> & HL & _ & Hall). simpl.
    apply Forall_lookup. intros j v Hj.
    destruct (lookup_lt_is_Some_2 (seqZ 0 (num_points + 1)) j) as [i Hi].
    { rewrite <- HL. by eapply lookup_lt_Some. }
    destruct (Hall j i Hi) as (p & Hp & HLj & _).
    rewrite path_point_same in Hp by done. injection Hp as <-.
    simpl in HLj. congruence.
  - destruct (path_loop_values _ _ _ _ _ _ _ _ _ _ _ Hrun)
      as (L & M & -> & -> & _ & HM & Hall). simpl.
    apply Forall_lookup. intros j v Hj.
    destruct (lookup_lt_is_Some_2 (seqZ 0 (num_points + 1)) j) as [i Hi].
    { rewrite <- HM. by eapply lookup_lt_Some. }
    destruct (Hall j i Hi) as (p & Hp & _ & HMj).
    rewrite path_point_same in Hp by done. injection Hp as <-.
    simpl in HMj. congruence.
Qed.

Lemma great_circle_path_same_point_witness :
  ∃ lats lons,
    great_circle_path 45 (-120) 45 (-120) 30 = Ok (lats, lons) ∧
    length lats = Z.to_nat (30 + 1) ∧
    length lons = Z.to_nat (30 + 1) ∧
    Forall (λ v, v = 45) lats ∧ Forall (λ v, v = -120) lons.
Proof.
  apply (great_circle_path_same_point 45 (-120) 30); lra || lia.
Defined.

End GeoMath_more.

(** * The full map *)

Section full_map.
Local Open Scope R_scope.


(** The marker size grows linearly from 3 (no connection) to 12 (fifty
    connections) and is clamped to that range; it never decreases when the
    connection count grows. *)
Theorem airport_size_clamped (c c' : Z) :
  3 <= airport_size c <= 12 ∧
  ((c <= 0)%Z → airport_size c = 3) ∧
  ((50 <= c)%Z → airport_size c = 12) ∧
  ((0 <= c <= 50)%Z → airport_size c = 3 + 9 * IZR c / 50) ∧
  ((c <= c')%Z → airport_size c <= airport_size c').
Proof.
  assert (∀ k, airport_size k = Rmax 3 (Rmin 12 (3 + 9 * IZR k / 50))) as Hdef.
  { intros k. unfold airport_size. do 2 f_equal. field. }
  rewrite !Hdef. unfold Rmax, Rmin.
  split; [|split; [|split; [|split]]].
  - repeat destruct (Rle_dec _ _); lra.
  - intros Hc%IZR_le. repeat destruct (Rle_dec _ _); lra.
  - intros Hc%IZR_le. repeat destruct (Rle_dec _ _); lra.
  - intros [H0%IZR_le H50%IZR_le]. repeat destruct (Rle_dec _ _); lra.
  - intros Hc%IZR_le. repeat destruct (Rle_dec _ _); lra.
Qed.

Lemma airport_size_clamped_witness :
  3 <= airport_size 10 <= 12 ∧
  airport_size (-1) = 3 ∧
  airport_size 60 = 12 ∧
  airport_size 10 = 3 + 9 * IZR 10 / 50 ∧
  airport_size 10 <= airport_size 60.
Proof.
  destruct (airport_size_clamped 10 60) as (H1 & _ & _ & H4 & H5).
  destruct (airport_size_clamped (-1) 60) as (_ & H2 & _).
  destruct (airport_size_clamped 60 60) as (_ & _ & H3 & _).
  split; [apply H1|]. split; [apply H2; lia|]. split; [apply H3; lia|].
  split; [apply H4; lia | apply H5; lia].
Defined.







End full_map.

(** * The hubs of the route analysis map *)

Lemma hub_match_loop_spec (g : Graph) (a : Airport) (upper_name : string)
    (hub_airports : list string) (hub_data : list Hub) :
  is_Some (_adj g !! airport_id a) →
  hub_match_loop g a upper_name hub_airports hub_data =
  Ok (if decide (Exists (λ hub, contains hub upper_name = true) hub_airports)
      then hub_data ++ [hub_of g a] else hub_data).
Proof.
  intros Ha. induction hub_airports as [|hub hubs IH]; cbn [hub_match_loop].
  - rewrite decide_False; [done|]. by intros ?%Exists_nil.
  - destruct (contains hub upper_name) eqn:Hc.
    + rewrite connections_degree by done. cbn [mbind result_bind].
      rewrite decide_True; [done|]. by left.
    + rewrite IH. f_equal.
      destruct (decide (Exists _ hubs)) as [He|He].
      * rewrite decide_True; [done | by right].
      * rewrite decide_False; [done|].
        intros [?|?]%Exists_cons; [congruence | done].
Qed.

Lemma hub_scan_spec (upper : string → string) (g : Graph)
    (hub_airports : list string) (airports_df : list Airport) :
  (∀ a, a ∈ airports_df → is_Some (_adj g !! airport_id a)) →
  ∀ hub_data,
    hub_scan upper g hub_airports airports_df hub_data =
    Ok (hub_data ++
        (hub_of g <$>
         filter (λ a, Exists (λ hub, contains hub (upper (airport_name a))
                                     = true) hub_airports) airports_df)).
Proof.
  induction airports_df as [|a l IH]; intros Hadj hub_data; cbn [hub_scan].
  - by rewrite app_nil_r.
  - rewrite hub_match_loop_spec by (apply Hadj; left).
    cbn [mbind result_bind]. rewrite IH by (intros; apply Hadj; by right).
    rewrite filter_cons. f_equal.
    destruct (decide (Exists _ hub_airports)); [|done].
    by rewrite fmap_cons, <- app_assoc.
Qed.

(** On the visualizer's own tables and graph the search for hubs does not
    raise. When some airport name, in upper case, contains one of the hub
    codes, [hub_data] lists exactly those airports, each row once and in
    table order, however many codes its name contains; otherwise it lists
    the rows of [get_top_airports(10)]. Every entry carries the connection
    count of its airport. *)
Theorem find_hubs_lists_matches (upper : string → string)
    (airports_df : list Airport) (routes_df : list Route)
    (hub_airports : option (list string)) :
  let g := _build_graph airports_df routes_df in
  let codes := default default_hub_airports hub_airports in
  let matched :=
    filter (λ a, Exists (λ hub, contains hub (upper (airport_name a)) = true)
                        codes) airports_df in
  ∃ hub_data,
    find_hubs upper airports_df g hub_airports = Ok hub_data ∧
    (matched ≠ [] → hub_data = hub_of g <$> matched) ∧
    (matched = [] →
     ∃ rows, get_top_airports airports_df g 10 = Ok rows ∧
             hub_data = hub_of g <$> rows) ∧
    Forall (λ h, hub_id h ∈ airport_ids airports_df ∧
                 connections g (hub_id h) = Ok (hub_connections h)) hub_data.
Proof.
  intros g codes matched.
  pose proof (graph_wf_build airports_df routes_df) as Hwf. fold g in Hwf.
  assert (∀ a, a ∈ airports_df → is_Some (_adj g !! airport_id a)) as Hadj.
  { intros a Ha. apply (wf_dom g Hwf), elem_of_nodes_build.
    by apply list_elem_of_fmap_2. }
  assert (∀ l, (∀ a, a ∈ l → a ∈ airports_df) →
               Forall (λ h, hub_id h ∈ airport_ids airports_df ∧
                            connections g (hub_id h) = Ok (hub_connections h))
                      (hub_of g <$> l)) as Hentries.
  { intros l Hl. apply Forall_fmap, Forall_forall. intros a Ha. simpl.
    split; [by apply list_elem_of_fmap_2, Hl|].
    by apply connections_degree, Hadj, Hl. }
  unfold find_hubs. fold codes. rewrite hub_scan_spec by done.
  cbn [mbind result_bind]. fold matched. rewrite app_nil_l.
  destruct matched as [|a l] eqn:Hm.
  - simpl. unfold get_top_airports.
    rewrite top_airports_ids_spec by (done || lia).
    cbn [mbind result_bind].
    set (rows := isin_rows _ airports_df).
    assert (∀ a, a ∈ rows → a ∈ airports_df) as Hrows.
    { intros a. unfold rows, isin_rows. rewrite list_elem_of_filter. tauto. }
    rewrite (mapM_Ok _ (hub_of g)).
    2:{ intros a Ha. rewrite connections_degree by by apply Hadj, Hrows.
        done. }
    eexists. split; [done|]. split_and!; [done | | by apply Hentries].
    intros _. by exists rows.
  - rewrite fmap_cons. eexists. split; [done|].
    split_and!; [done | done |].
    rewrite <- fmap_cons. apply Hentries. intros b Hb. rewrite <- Hm in Hb.
    unfold matched in Hb. apply list_elem_of_filter in Hb. tauto.
Qed.

Section hub_lines.
Local Open Scope R_scope.




End hub_lines.

(** * Cleaning the data files *)






(** * The range of the coordinates of a path *)

Section path_range.
Local Open Scope R_scope.












End path_range.

(** * The lines of the full map join the two airports *)

Section full_map_lines.
Local Open Scope R_scope.




End full_map_lines.

(** * The first of the ranking has the greatest connection count *)

(** For a non-empty airport table, [get_top_airports(1)] returns the rows of
    one airport, whose connection count is the [max_connections] of the
    statistics; among the airports with that count it is the one whose id
    comes first in the table. *)
Theorem top_airport_has_max_connections (airports_df : list Airport)
    (routes_df : list Route) :
  airports_df ≠ [] →
  let g := _build_graph airports_df routes_df in
  ∃ st x,
    get_network_statistics g = Ok st ∧
    top_airports_ids g 1 = Ok [x] ∧
    get_top_airports airports_df g 1 = Ok (isin_rows [x] airports_df) ∧
    isin_rows [x] airports_df ≠ [] ∧
    connections g x = Ok (max_connections st) ∧
    (∀ y, y ∈ nodes g → connections g y = Ok (max_connections st) →
          y = x ∨ before (nodes g) x y).
Proof.
  intros Hne g.
  pose proof (graph_wf_build airports_df routes_df) as Hwf. fold g in Hwf.
  pose proof (nodes_build_nonempty airports_df routes_df Hne) as Hnodes.
  fold g in Hnodes.
  destruct (statistics_fields g Hwf Hnodes)
    as (st & Hst & _ & _ & _ & Hmax & _).
  destruct (py_max_spec (degree g <$> nodes g)) as (m & Hm & Hin & Hall).
  { by destruct (nodes g). }
  rewrite Hm in Hmax. injection Hmax as Hmax.
  pose proof (sorted_reverse_perm (degree g) (nodes g)) as Hperm.
  pose proof (sorted_reverse_sorted (degree g) (nodes g)) as Hsorted.
  destruct (sorted_reverse (degree g) (nodes g)) as [|x rest] eqn:Hrank.
  { apply Permutation_nil_l in Hperm. done. }
  assert (x ∈ nodes g) as Hx by (rewrite <- Hperm; left).
  apply StronglySorted_inv in Hsorted as [_ Hrest].
  rewrite Forall_forall in Hrest.
  assert (∀ y, y ∈ nodes g → y = x ∨ ranks_above (degree g) (nodes g) x y)
    as Hrank_all.
  { intros y Hy. rewrite <- Hperm in Hy.
    apply elem_of_cons in Hy as [->|Hy]; [by left | right; by apply Hrest]. }
  assert (degree g x = m) as Hdx.
  { apply Z.le_antisymm; [apply Hall; by apply list_elem_of_fmap_2|].
    apply list_elem_of_fmap in Hin as (y & -> & Hy).
    destruct (Hrank_all y Hy) as [->|Hr]; [done|].
    by apply ranks_above_key in Hr. }
  assert (∀ y, y ∈ nodes g → connections g y = Ok (degree g y)) as Hconn.
  { intros y Hy. by apply connections_degree, (wf_dom g Hwf). }
  exists st, x. split_and!.
  - done.
  - rewrite top_airports_ids_spec by (done || lia). by rewrite Hrank.
  - unfold get_top_airports. rewrite top_airports_ids_spec by (done || lia).
    by rewrite Hrank.
  - apply elem_of_nodes_build in Hx.
    apply list_elem_of_fmap in Hx as (a & -> & Ha). intros Hnil.
    assert (a ∈ isin_rows [airport_id a] airports_df) as Hin'.
    { apply list_elem_of_filter. split; [left | done]. }
    rewrite Hnil in Hin'. by apply elem_of_nil in Hin'.
  - rewrite Hconn by done. by rewrite Hdx, Hmax.
  - intros y Hy Hcy. rewrite Hconn in Hcy by done. injection Hcy as Hcy.
    destruct (Hrank_all y Hy) as [|[Hlt|[_ Hb]]]; [by left | | by right].
    rewrite Hdx, Hcy, <- Hmax in Hlt. lia.
Qed.

Lemma top_airport_has_max_connections_witness :
  let g := _build_graph example_airports example_routes in
  ∃ st x,
    get_network_statistics g = Ok st ∧
    top_airports_ids g 1 = Ok [x] ∧
    get_top_airports example_airports g 1
    = Ok (isin_rows [x] example_airports) ∧
    isin_rows [x] example_airports ≠ [] ∧
    connections g x = Ok (max_connections st) ∧
    (∀ y, y ∈ nodes g → connections g y = Ok (max_connections st) →
          y = x ∨ before (nodes g) x y).
Proof.
  apply (top_airport_has_max_connections example_airports example_routes).
  discriminate.
Defined.
